(** * heminetwork [testutil]: a shallow embedding and its checked properties

    The Go package [testutil] (file [testutil/testutil.go]) collects helpers
    for test suites: a generator of hash-linked keystone fixtures, byte
    padding helpers, a random byte source, a probe for a free port and a
    harness stepping btcd's script engine.  Pure helpers are embedded as Rocq
    functions; helpers that talk to the outside (entropy, the port probe, the
    script engine, the test log) are interaction trees whose events are the
    calls that leave the package. *)

From Stdlib Require Import String Ascii ZArith List Lia.
From Stdlib Require DecimalString DecimalZ DecimalPos.
From stdpp Require Import base tactics option list vector gmap.
From ITree Require Import ITree ITreeFacts Events.Exception.

#[local] Open Scope Z_scope.

(** ** Go values *)

Module Go.

(** A [byte] is a [uint8]; it is carried by [Z] and produced through [uint8],
    which truncates the way a Go conversion does. *)
Abbreviation byte := Z (only parsing).

Definition uint8 (z : Z) : Z := z mod 2 ^ 8.
Definition uint32 (z : Z) : Z := z mod 2 ^ 32.

(** [int] on the 64-bit targets the package is built for; [int_wrap] is the
    value an [int] expression has after overflow. *)
Definition int_wrap (z : Z) : Z := (z + 2 ^ 63) mod 2 ^ 64 - 2 ^ 63.

(** A Go [string] is an immutable byte sequence: [len] counts bytes and
    [s[:n]] keeps the first [n] of them. *)
Definition len_string (s : string) : Z := Z.of_nat (String.length s).
Definition slice_string_to (s : string) (n : Z) : string :=
  substring 0 (Z.to_nat n) s.
Definition byte_of_ascii (c : ascii) : byte := Z.of_N (N_of_ascii c).
Definition bytes_of_string (s : string) : list byte :=
  byte_of_ascii <$> list_ascii_of_string s.

(** The builtin [copy(dst, src)]: the first [min(len(dst), len(src))] elements
    of [dst] are overwritten, the length of [dst] never changes. *)
Definition copy (dst src : list byte) : list byte :=
  take (length dst) src ++ drop (length src) dst.

(** A call of a pure helper ends in a value or in a run-time panic. *)
Inductive outcome (A : Type) : Type :=
| Returned (a : A)
| RuntimePanic (msg : string).
#[global] Arguments Returned {A} a.
#[global] Arguments RuntimePanic {A} msg.

(** What follows a call that may have panicked. *)
Definition and_then {A B : Type} (o : outcome A) (k : A -> outcome B) : outcome B :=
  match o with
  | Returned a => k a
  | RuntimePanic msg => RuntimePanic msg
  end.

(** The target the package is built for, by the one constant of the runtime
    that shows in this package: [runtime.maxAlloc], the largest number of
    bytes a single allocation may ask for. *)
Class Runtime : Type := { maxAlloc : Z; maxAlloc_pos : 0 < maxAlloc }.

(** [maxAlloc] of linux/amd64, where the heap has 48 address bits. *)
Definition linux_amd64 : Runtime := {| maxAlloc := 2 ^ 48; maxAlloc_pos := eq_refl |}.

Section Allocation.
Context {rt : Runtime}.

(** The test [runtime.makeslice] makes before it takes storage for [n]
    elements of [elem_size] bytes each: [n] is not negative and the bytes
    asked for do not exceed [maxAlloc].  Storage that passes the test is
    taken to be available. *)
Definition makeslice_fits (elem_size n : Z) : bool :=
  (0 <=? n) && (elem_size * n <=? maxAlloc).

(** The zero-valued bytes a fresh slice of length [n] holds. *)
Definition zeroed (n : Z) : list byte := replicate (Z.to_nat n) 0.

(** [make([]byte, n)]. *)
Definition make_bytes (n : Z) : outcome (list byte) :=
  if makeslice_fits 1 n then Returned (zeroed n)
  else RuntimePanic "makeslice: len out of range".

(** [make([]T, 0, n)] for elements of [elem_size] bytes: the empty slice,
    with room for [n] elements. *)
Definition make_with_cap {A : Type} (elem_size n : Z) : outcome (list A) :=
  if makeslice_fits elem_size n then Returned []
  else RuntimePanic "makeslice: cap out of range".

End Allocation.

(** The types the package receives from its imports and never looks into:
    the builtin interface [error], [txscript.Engine] and [wire.MsgTx]. *)
Class Imports : Type := { error : Type; Engine : Type; MsgTx : Type }.

(** What [panic] can be called with here: a run-time error raised by the
    language, or an [error] handed to [panic(err)]. *)
Inductive panic_value `{Imports} : Type :=
| RuntimeError (msg : string)
| ErrorValue (err : error).

End Go.
Import Go.

(** ** Byte utilities ([FillBytes], [FillBytesZero]) *)

Module Fill.

Definition underscore : byte := Eval cbv in byte_of_ascii "_"%char.

(** [for i := start; i < len(result); i++ { result[i] = '_' }], by the number
    of iterations left. *)
Fixpoint fill_loop (trips : nat) (i : nat) (result : list byte) : list byte :=
  match trips with
  | O => result
  | S trips' => fill_loop trips' (S i) (<[i := underscore]> result)
  end.

Section WithRuntime.
Context {rt : Runtime}.

Definition FillBytes (prefix : string) (n : Z) : outcome (list byte) :=
  let n := if n <? 0 then 0 else n in
  let prefix := if len_string prefix >? n then slice_string_to prefix n else prefix in
  and_then (make_bytes n) (fun result =>
  let result := copy result (bytes_of_string prefix) in
  let start := Z.to_nat (len_string prefix) in
  Returned (fill_loop (length result - start) start result)).

Definition FillBytesZero (prefix : string) (n : Z) : outcome (list byte) :=
  let n := if n <? 0 then 0 else n in
  let prefix := if len_string prefix >? n then slice_string_to prefix n else prefix in
  and_then (make_bytes n) (fun result =>
  let result := copy result (bytes_of_string prefix) in
  Returned result).

End WithRuntime.
End Fill.
Import Fill.

(** ** [crypto/sha256]: a reference instance

    [testutil.SHA256] calls [sha256.Sum256] of Go's standard library.  The
    development below is parametric in that primitive; this module supplies
    the FIPS 180-4 function itself so that the fixtures can be evaluated. *)

Module Sha256Ref.

Definition add32 (a b : Z) : Z := uint32 (a + b).
Definition rotr (n x : Z) : Z :=
  Z.lor (Z.shiftr x n) (uint32 (Z.shiftl x (32 - n))).
Definition xor3 (a b c : Z) : Z := Z.lxor (Z.lxor a b) c.
Definition Ch (x y z : Z) : Z :=
  Z.lxor (Z.land x y) (Z.land (Z.lxor x 0xffffffff) z).
Definition Maj (x y z : Z) : Z := xor3 (Z.land x y) (Z.land x z) (Z.land y z).
Definition Sigma0 (x : Z) : Z := xor3 (rotr 2 x) (rotr 13 x) (rotr 22 x).
Definition Sigma1 (x : Z) : Z := xor3 (rotr 6 x) (rotr 11 x) (rotr 25 x).
Definition sigma0 (x : Z) : Z := xor3 (rotr 7 x) (rotr 18 x) (Z.shiftr x 3).
Definition sigma1 (x : Z) : Z := xor3 (rotr 17 x) (rotr 19 x) (Z.shiftr x 10).

(** The constants of the standard are fractional parts of roots of the first
    primes: 32 bits of the cube roots of the first 64 primes for the round
    constants, of the square roots of the first 8 primes for the initial
    state. *)
Definition prime (n : Z) : bool :=
  forallb (fun d => negb (n mod d =? 0)) (seqZ 2 (n - 2)).

Definition first_primes (count : nat) : list Z :=
  take count (List.filter prime (seqZ 2 400)).

(** The largest [r] below [2^k] with [pow r <= n], bit by bit. *)
Fixpoint root (k : nat) (pow : Z -> Z) (n r : Z) : Z :=
  match k with
  | O => r
  | S k' =>
      let r' := r + 2 ^ Z.of_nat k' in
      root k' pow n (if pow r' <=? n then r' else r)
  end.

Definition fraction_bits (degree p : Z) : Z :=
  uint32 (root 40 (fun r => r ^ degree) (p * 2 ^ (32 * degree)) 0).

Definition K : list Z := Eval vm_compute in fraction_bits 3 <$> first_primes 64.

Record state : Type := State
  { sa : Z; sb : Z; sc : Z; sd : Z; se : Z; sf : Z; sg : Z; sh : Z }.

Definition state_of_words (w : list Z) : state :=
  State (nth 0 w 0) (nth 1 w 0) (nth 2 w 0) (nth 3 w 0)
        (nth 4 w 0) (nth 5 w 0) (nth 6 w 0) (nth 7 w 0).

Definition H0 : state :=
  Eval vm_compute in state_of_words (fraction_bits 2 <$> first_primes 8).

Definition be32 (w : Z) : list byte :=
  [ Z.shiftr w 24 mod 256; Z.shiftr w 16 mod 256; Z.shiftr w 8 mod 256; w mod 256 ].

Definition word_of_bytes (b : list byte) : Z :=
  foldl (fun acc x => acc * 256 + x) 0 (take 4 b).

Fixpoint words (n : nat) (b : list byte) : list Z :=
  match n with
  | O => []
  | S n' => word_of_bytes b :: words n' (drop 4 b)
  end.

Fixpoint schedule (k : nat) (w : list Z) : list Z :=
  match k with
  | O => w
  | S k' =>
      let t := length w in
      let at_ i := nth (t - i) w 0 in
      schedule k' (w ++ [add32 (add32 (sigma1 (at_ 2%nat)) (at_ 7%nat))
                               (add32 (sigma0 (at_ 15%nat)) (at_ 16%nat))])
  end.

Definition round (s : state) (kw : Z * Z) : state :=
  let t1 := add32 (add32 (add32 (sh s) (Sigma1 (se s))) (Ch (se s) (sf s) (sg s)))
                  (add32 (fst kw) (snd kw)) in
  let t2 := add32 (Sigma0 (sa s)) (Maj (sa s) (sb s) (sc s)) in
  State (add32 t1 t2) (sa s) (sb s) (sc s) (add32 (sd s) t1) (se s) (sf s) (sg s).

Definition compress (h : state) (block : list byte) : state :=
  let w := schedule 48 (words 16 block) in
  let s := foldl round h (zip K w) in
  State (add32 (sa h) (sa s)) (add32 (sb h) (sb s)) (add32 (sc h) (sc s))
        (add32 (sd h) (sd s)) (add32 (se h) (se s)) (add32 (sf h) (sf s))
        (add32 (sg h) (sg s)) (add32 (sh h) (sh s)).

Definition pad (msg : list byte) : list byte :=
  let l := Z.of_nat (length msg) in
  let bits := 8 * l in
  msg ++ [128] ++ replicate (Z.to_nat ((55 - l) mod 64)) 0
      ++ be32 (Z.shiftr bits 32 mod 2 ^ 32) ++ be32 (bits mod 2 ^ 32).

Fixpoint blocks (n : nat) (b : list byte) : list (list byte) :=
  match n with
  | O => []
  | S n' => take 64 b :: blocks n' (drop 64 b)
  end.

Definition digest (msg : list byte) : list byte :=
  let p := pad msg in
  let s := foldl compress H0 (blocks (length p / 64) p) in
  be32 (sa s) ++ be32 (sb s) ++ be32 (sc s) ++ be32 (sd s)
    ++ be32 (se s) ++ be32 (sf s) ++ be32 (sg s) ++ be32 (sh s).

(** A list read as a Go array [[n]byte]: missing elements are the zero value. *)
Fixpoint array_of_bytes (n : nat) (b : list byte) : vec byte n :=
  match n with
  | O => [#]
  | S n' => hd 0 b ::: array_of_bytes n' (tl b)
  end.

Definition Sum256 (msg : list byte) : vec byte 32 := array_of_bytes 32 (digest msg).

End Sha256Ref.

(** ** The [hemi] records used by the fixture builder *)

Module Hemi.

(** [chainhash.Hash] is [[32]byte]; it keys the keystone index. *)
Abbreviation chainhash_Hash := (list byte) (only parsing).

(** [hemi.L2Keystone].  The struct is declared in package [hemi]: [Version]
    is a [uint8], both block numbers are [uint32] (the builder assigns
    [uint32(ci+1) * 25] to one and adds 1 to the other) and the four hashes
    are byte slices. *)
Record L2Keystone : Type := mkL2Keystone
  { Version : Z;
    L1BlockNumber : Z;
    L2BlockNumber : Z;
    ParentEPHash : list byte;
    PrevKeystoneEPHash : list byte;
    StateRoot : list byte;
    EPHash : list byte }.

(** [unsafe.Sizeof(hemi.L2Keystone{})] on a 64-bit target: one byte and
    two [uint32], laid out in 16 bytes, and four slice headers of 24 bytes. *)
Definition sizeof_L2Keystone : Z := 16 + 4 * 24.

(** The hashing primitive of Go's standard library, by its signature
    [func Sum256(data []byte) [Size]byte] with [Size = 32]. *)
Class Sha256 : Type := { Sum256 : list byte -> vec byte 32 }.

(** The abbreviated keystone of package [hemi], by the two operations the
    builder calls: [hemi.L2KeystoneAbbreviate] and
    the method [Hash] of [hemi.L2KeystoneAbrev]. *)
Class Abbreviation : Type :=
  { L2KeystoneAbrev : Type;
    L2KeystoneAbbreviate : L2Keystone -> L2KeystoneAbrev;
    AbrevHash : L2KeystoneAbrev -> chainhash_Hash }.

End Hemi.
Import Hemi.

(** ** The keystone fixture builder ([SHA256], [MakeSharedKeystones]) *)

Module Keystones.
Section Builder.
Context {rt : Runtime} {sha : Sha256} {abr : Abbreviation}.

(** [xx := sha256.Sum256(x); return xx[:]] *)
Definition SHA256 (x : list byte) : list byte := vec_to_list (Sum256 x).

(** The record [prevKeystone] points to before the first iteration. *)
Definition genesis : L2Keystone :=
  {| Version := 1;
     L1BlockNumber := 10000;
     L2BlockNumber := 25;
     ParentEPHash := [];
     PrevKeystoneEPHash := SHA256 [0; 0];
     StateRoot := [];
     EPHash := SHA256 [0] |}.

(** The variables the loop reads and writes. *)
Record builder : Type := mkBuilder
  { prevKeystone : L2Keystone;
    kssMap : gmap (list byte) L2KeystoneAbrev;
    kssList : list L2Keystone }.

(** One iteration of [for ci := range n]. *)
Definition iteration (ci : Z) (st : builder) : builder :=
  let x := uint8 (ci + 1) in
  let l2Keystone :=
    {| Version := 1;
       L1BlockNumber := uint32 (L1BlockNumber (prevKeystone st) + 1);
       L2BlockNumber := uint32 (uint32 (ci + 1) * 25);
       ParentEPHash := SHA256 [x; x];
       PrevKeystoneEPHash := EPHash (prevKeystone st);
       StateRoot := SHA256 [x; x; x];
       EPHash := SHA256 [x] |} in
  let abrevKss := L2KeystoneAbbreviate l2Keystone in
  {| prevKeystone := l2Keystone;
     kssMap := <[AbrevHash abrevKss := abrevKss]> (kssMap st);
     kssList := kssList st ++ [l2Keystone] |}.

(** [range n] runs the body for [ci = 0 .. n-1]; [trips] is what is left. *)
Fixpoint range_loop (trips : nat) (ci : Z) (st : builder) : builder :=
  match trips with
  | O => st
  | S trips' => range_loop trips' (ci + 1) (iteration ci st)
  end.

(** [make([]hemi.L2Keystone, 0, n)] panics on a negative capacity and on one
    that asks for more than the runtime allocates; [make(map, 0)] gives the
    empty map. *)
Definition MakeSharedKeystones (n : Z)
  : outcome (gmap (list byte) L2KeystoneAbrev * list L2Keystone) :=
  and_then (make_with_cap sizeof_L2Keystone n) (fun kssList0 =>
  let st := range_loop (Z.to_nat n) 0
              {| prevKeystone := genesis; kssMap := ∅; kssList := kssList0 |} in
  Returned (kssMap st, kssList st)).

End Builder.
End Keystones.

(** ** A reference instance of the abbreviated keystone *)

Module HemiRef.

(** Modelled from the spec: [hemi.L2KeystoneAbbreviate] and the [Hash] method
    of [hemi.L2KeystoneAbrev] belong to package [hemi], which is not part of
    this file's source.  The specification calls the abbreviated keystone
    "a derived, condensed representation of a keystone record, keyed by its
    own content hash" and "built deterministically from a full record".
    Here the condensed form keeps the three numbers and clips each hash to a
    fixed number of leading bytes; the content hash is SHA-256 applied twice
    to the serialised form.  It serves to evaluate the builder on concrete
    inputs; every theorem about the builder is stated for an arbitrary
    [Abbreviation]. *)
Record Abrev : Type := mkAbrev
  { aVersion : Z;
    aL1BlockNumber : Z;
    aL2BlockNumber : Z;
    aParentEPHash : list byte;
    aPrevKeystoneEPHash : list byte;
    aStateRoot : list byte;
    aEPHash : list byte }.

Definition clip (n : nat) (b : list byte) : list byte :=
  vec_to_list (Sha256Ref.array_of_bytes n b).

(** Modelled from the spec: the condensed form "built deterministically from
    a full record", standing for [hemi.L2KeystoneAbbreviate]. *)
Definition abbreviate (k : L2Keystone) : Abrev :=
  {| aVersion := Version k;
     aL1BlockNumber := L1BlockNumber k;
     aL2BlockNumber := L2BlockNumber k;
     aParentEPHash := clip 11 (ParentEPHash k);
     aPrevKeystoneEPHash := clip 12 (PrevKeystoneEPHash k);
     aStateRoot := clip 32 (StateRoot k);
     aEPHash := clip 12 (EPHash k) |}.

Definition serialize (a : Abrev) : list byte :=
  [aVersion a] ++ Sha256Ref.be32 (aL1BlockNumber a) ++ Sha256Ref.be32 (aL2BlockNumber a)
    ++ aParentEPHash a ++ aPrevKeystoneEPHash a ++ aStateRoot a ++ aEPHash a.

(** Modelled from the spec: the "own content hash" that keys an abbreviated
    keystone, standing for the method [Hash] of [hemi.L2KeystoneAbrev]. *)
Definition hash (a : Abrev) : list byte :=
  Sha256Ref.digest (Sha256Ref.digest (serialize a)).

#[export] Instance sha256_ref : Sha256 := {| Sum256 := Sha256Ref.Sum256 |}.
#[export] Instance abbreviation_ref : Abbreviation :=
  {| L2KeystoneAbrev := Abrev; L2KeystoneAbbreviate := abbreviate; AbrevHash := hash |}.

End HemiRef.

(** ** Calls that leave the package: events, executions *)

Module Interaction.

Notation "x <- t1 ;; t2" := (ITree.bind t1 (fun x => t2))
  (at level 100, t1 at next level, right associativity) : itree_scope.
Notation "t1 ;;; t2" := (ITree.bind t1 (fun _ => t2))
  (at level 100, right associativity) : itree_scope.

(** A call made and the answer the environment gave. *)
Inductive call (E : Type -> Type) : Type :=
| Call {T : Type} (e : E T) (answer : T).
#[global] Arguments Call {E T} e answer.

Section Executions.
Context {E : Type -> Type} {R : Type}.

(** [run t tr o]: [t] makes the calls of [tr], in order and with the answers
    recorded there, and is then seen as [o]: returning ([RetF]), about to make
    a further call ([VisF]) or about to take an internal step ([TauF]).  A run
    may be cut anywhere, so the runs of [t] are the finite prefixes of all its
    executions, those that never end included. *)
Inductive run : itree E R -> list (call E) -> itree' E R -> Prop :=
| run_stop t : run t [] (observe t)
| run_tau t t' tr o :
    observe t = TauF t' -> run t' tr o -> run t tr o
| run_call t T (e : E T) k (x : T) tr o :
    observe t = VisF e k -> run (k x) tr o -> run t (Call e x :: tr) o.

(** [t] returns [r] after the calls of [tr]. *)
Definition returns (t : itree E R) (tr : list (call E)) (r : R) : Prop :=
  run t tr (RetF r).

(** After the calls of [tr], the next thing [t] does is the call [e]. *)
Definition calls_next (t : itree E R) (tr : list (call E)) {T} (e : E T) : Prop :=
  exists k, run t tr (VisF e k).

End Executions.

(** [t] panics with [v] after the calls of [tr]: a panic is a call that is
    never answered. *)
Definition panics `{Imports} {F : Type -> Type} {R : Type}
    (t : itree (exceptE panic_value +' F) R)
    (tr : list (call (exceptE panic_value +' F))) (v : panic_value) : Prop :=
  calls_next t tr (inl1 (Throw v)).

End Interaction.
Import Interaction.
#[local] Open Scope itree_scope.

(** ** [RandomBytes] *)

Module Random.
Section WithImports.
Context `{Imports} {rt : Runtime}.

(** [crypto/rand.Read(b)] for a buffer of [n] bytes: the environment answers
    with the bytes it wrote and the error it returns. *)
Variant randE : Type -> Type :=
| RandRead (n : nat) : randE (list byte * option error).

(** [b := make([]byte, count)] panics on a length that is negative or beyond
    what the runtime allocates; [rand.Read] writes into [b], whose length
    stays what [make] gave it. *)
Definition RandomBytes (count : Z) : itree (exceptE panic_value +' randE) (list byte) :=
  match make_bytes count with
  | RuntimePanic msg => throw (RuntimeError msg)
  | Returned b =>
      answer <- trigger (RandRead (length b)) ;;
      let '(written, err) := answer in
      let b := copy b written in
      match err with
      | Some e => throw (ErrorValue e)
      | None => Ret b
      end
  end.

End WithImports.
End Random.

(** ** [FreePort] *)

Module Ports.
Section WithImports.
Context `{Imports}.

(** [freeport.GetFreePort()] of the library the package imports: the
    environment answers with the port it found and the error it returns. *)
Variant portE : Type -> Type :=
| GetFreePort : portE (Z * option error).

(** [strconv.Itoa] of Go's standard library: the decimal numeral of an
    [int], with a minus sign before a negative one and [0] for zero. *)
Definition Itoa (i : Z) : string :=
  DecimalString.NilZero.string_of_int (Z.to_int i).

Definition FreePort : itree (exceptE panic_value +' portE) string :=
  answer <- trigger GetFreePort ;;
  let '(port, err) := answer in
  match err with
  | Some e => throw (ErrorValue e)
  | None => Ret (Itoa port)
  end.

End WithImports.
End Ports.

(** ** [ExecuteTX] *)

Module Harness.
Section WithImports.
Context `{Imports}.

(** The flags of [txscript] the harness passes, by name. *)
Variant ScriptFlag : Type :=
| ScriptBip16
| ScriptVerifyDERSignatures
| ScriptStrictMultiSig
| ScriptDiscourageUpgradableNops.

(** [*btcutil.Tx], through the two accessors used: [MsgTx()] and [Hash()]. *)
Record Tx : Type := mkTx { tx_MsgTx : MsgTx; tx_Hash : list byte }.

(** The script engine of btcd, as the calls made on it.  Every answer has the
    shape of the Go result list; an [error] is [nil] when it is [None]. *)
Variant vmE : Type -> Type :=
| NewEngine (scriptPubKey : list byte) (tx : MsgTx) (txIdx : Z)
            (flags : list ScriptFlag) (inputAmount : Z) : vmE (Engine * option error)
| DisasmPC (vm : Engine) : vmE (string * option error)
| Step (vm : Engine) : vmE (bool * option error)
| GetStack (vm : Engine) : vmE (list (list byte))
| CheckErrorCondition (vm : Engine) (finalScript : bool) : vmE (option error).

(** The lines [t.Logf] is asked to print, one constructor per format. *)
Variant log_line : Type :=
| LogExecuting (txHash : list byte)
| LogDisasm (i : Z) (d : string)
| LogStack (i : Z) (stack : list (list byte))
| LogSuccess (txHash : list byte).

Variant logE : Type -> Type :=
| Logf (line : log_line) : logE unit.

Definition harnessE : Type -> Type := vmE +' logE.

Definition logf (dump : bool) (line : log_line) : itree harnessE unit :=
  if dump then trigger (Logf line) else Ret tt.

(** How one iteration of the stepping loop ends: [i++] and again, [return
    err], or [break]. *)
Variant loop_exit : Type :=
| LoopReturn (err : error)
| LoopBreak.

Definition loop_body (dump : bool) (vm : Engine) (i : Z)
  : itree harnessE (Z + loop_exit) :=
  answer <- trigger (DisasmPC vm) ;;
  let '(d, err) := answer in
  match err with
  | Some e => Ret (inr (LoopReturn e))
  | None =>
      logf dump (LogDisasm i d) ;;;
      answer <- trigger (Step vm) ;;
      let '(done, err) := answer in
      match err with
      | Some e => Ret (inr (LoopReturn e))
      | None =>
          stack <- trigger (GetStack vm) ;;
          logf dump (LogStack i stack) ;;;
          if done : bool then Ret (inr LoopBreak) else Ret (inl (int_wrap (i + 1)))
      end
  end.

Definition after_loop (dump : bool) (vm : Engine) (tx : Tx)
  : itree harnessE (option error) :=
  err <- trigger (CheckErrorCondition vm true) ;;
  match err with
  | Some e => Ret (Some e)
  | None => logf dump (LogSuccess (tx_Hash tx)) ;;; Ret None
  end.

Definition flags : list ScriptFlag :=
  [ScriptBip16; ScriptVerifyDERSignatures; ScriptStrictMultiSig;
   ScriptDiscourageUpgradableNops].

(** [ExecuteTX(t, dump, scriptPubKey, tx)].  The test handle [t] is the
    destination of the [Logf] events; the arguments of [txscript.NewEngine]
    that are [nil] in the call (signature cache, hash cache, previous output
    fetcher) are left out of the event.  The result is the [error] returned,
    [None] for [nil]. *)
Definition ExecuteTX (dump : bool) (scriptPubKey : list byte) (tx : Tx)
  : itree harnessE (option error) :=
  answer <- trigger (NewEngine scriptPubKey (tx_MsgTx tx) 0 flags (-1)) ;;
  let '(vm, err) := answer in
  match err with
  | Some e => Ret (Some e)
  | None =>
      logf dump (LogExecuting (tx_Hash tx)) ;;;
      exit <- ITree.iter (loop_body dump vm) 0 ;;
      match exit with
      | LoopReturn e => Ret (Some e)
      | LoopBreak => after_loop dump vm tx
      end
  end.

End WithImports.
End Harness.

(** * Properties *)

(** ** Strings and slices *)

Module GoFacts.

Lemma length_bytes_of_string (s : string) :
  length (bytes_of_string s) = String.length s.
Proof.
  unfold bytes_of_string. rewrite length_fmap.
  induction s as [|c s IH]; simpl; congruence.
Qed.

Lemma len_string_bytes (s : string) :
  len_string s = Z.of_nat (length (bytes_of_string s)).
Proof. unfold len_string. now rewrite length_bytes_of_string. Qed.

Lemma list_ascii_of_substring (n : nat) (s : string) :
  list_ascii_of_string (substring 0 n s) = take n (list_ascii_of_string s).
Proof.
  revert s. induction n as [|n IH]; intros [|c s]; simpl; try reflexivity.
  now rewrite IH.
Qed.

Lemma bytes_of_slice_string_to (s : string) (n : Z) :
  bytes_of_string (slice_string_to s n) = take (Z.to_nat n) (bytes_of_string s).
Proof.
  unfold bytes_of_string, slice_string_to.
  now rewrite list_ascii_of_substring, fmap_take.
Qed.

Lemma length_zeroed (n : Z) : length (zeroed n) = Z.to_nat n.
Proof. apply length_replicate. Qed.

Lemma length_copy (dst src : list byte) : length (copy dst src) = length dst.
Proof.
  unfold copy. rewrite length_app, length_take, length_drop. lia.
Qed.

(** Copying a source that fits into zeroes leaves the source followed by the
    zeroes that were not overwritten. *)
Lemma copy_zeroed (n : Z) (src : list byte) :
  (length src <= Z.to_nat n)%nat ->
  copy (zeroed n) src = src ++ replicate (Z.to_nat n - length src) 0.
Proof.
  intros Hle. unfold copy. rewrite length_zeroed.
  rewrite take_ge by lia. f_equal.
  unfold zeroed. now rewrite drop_replicate.
Qed.

Section Allocation.
Context {rt : Runtime}.

Lemma makeslice_fits_spec (elem_size n : Z) :
  makeslice_fits elem_size n = true <-> 0 <= n /\ elem_size * n <= maxAlloc.
Proof. unfold makeslice_fits. rewrite andb_true_iff, Z.leb_le, Z.leb_le. reflexivity. Qed.

Lemma makeslice_fits_false (elem_size n : Z) :
  makeslice_fits elem_size n = false <-> n < 0 \/ maxAlloc < elem_size * n.
Proof.
  unfold makeslice_fits. rewrite andb_false_iff, !Z.leb_gt. reflexivity.
Qed.

(** [make([]byte, n)] returns [n] zero bytes within the limit of the
    runtime, and panics outside of it. *)
Lemma make_bytes_fits (n : Z) :
  0 <= n <= maxAlloc -> make_bytes n = Returned (zeroed n).
Proof.
  intros Hn. unfold make_bytes.
  rewrite (proj2 (makeslice_fits_spec 1 n)); [reflexivity | lia].
Qed.

Lemma make_bytes_panics (n : Z) :
  n < 0 \/ maxAlloc < n -> make_bytes n = RuntimePanic "makeslice: len out of range".
Proof.
  intros Hn. unfold make_bytes.
  rewrite (proj2 (makeslice_fits_false 1 n)); [reflexivity | lia].
Qed.

End Allocation.

(** Adding to a truncated number truncates the sum. *)
Lemma uint32_add_l (a b : Z) : uint32 (uint32 a + b) = uint32 (a + b).
Proof. unfold uint32. apply Z.add_mod_idemp_l. lia. Qed.

Lemma uint32_shift (a : Z) : uint32 (a + 2 ^ 32) = uint32 a.
Proof.
  unfold uint32. rewrite <- (Z.mul_1_l (2 ^ 32)) at 1.
  apply Z.mod_add. lia.
Qed.

Lemma uint8_shift (a : Z) : uint8 (a + 2 ^ 32) = uint8 a.
Proof.
  unfold uint8. replace (2 ^ 32) with (2 ^ 24 * 2 ^ 8) by reflexivity.
  apply Z.mod_add. lia.
Qed.

End GoFacts.
Import GoFacts.

(** ** The reference [Sum256] *)

Module Sha256Facts.
Import Sha256Ref.

Lemma length_digest (msg : list Z) : length (digest msg) = 32%nat.
Proof. unfold digest. cbv zeta. rewrite !length_app. reflexivity. Qed.

(** A list of the right length is the array it is read as. *)
Lemma array_of_bytes_exact (n : nat) (b : list Z) :
  length b = n -> vec_to_list (array_of_bytes n b) = b.
Proof.
  revert b. induction n as [|n IH]; intros [|x b] Hlen; try discriminate.
  - reflexivity.
  - cbn. f_equal. apply IH. now injection Hlen.
Qed.

(** The array [Sum256] returns holds the digest, nothing added and nothing
    cut. *)
Lemma Sum256_digest (msg : list Z) : vec_to_list (Sum256 msg) = digest msg.
Proof. apply array_of_bytes_exact, length_digest. Qed.

End Sha256Facts.

(** ** [FillBytes] and [FillBytesZero] *)

Module FillFacts.

(** The length and the prefix a call works with after its two guards. *)
Definition clamp (n : Z) : Z := if n <? 0 then 0 else n.
Definition cut (prefix : string) (n : Z) : string :=
  if len_string prefix >? clamp n then slice_string_to prefix (clamp n) else prefix.

Lemma cut_bytes (prefix : string) (n : Z) :
  bytes_of_string (cut prefix n) = take (Z.to_nat (clamp n)) (bytes_of_string prefix).
Proof.
  unfold cut. destruct (Z.gtb_spec (len_string prefix) (clamp n)) as [Hgt|Hle].
  - apply bytes_of_slice_string_to.
  - rewrite take_ge; [reflexivity|].
    rewrite len_string_bytes in Hle. lia.
Qed.

(** The loop leaves what is below [i], writes [trips] underscores from [i] on
    and leaves what is behind them. *)
Lemma fill_loop_spec (trips i : nat) (result : list byte) :
  (i + trips <= length result)%nat ->
  fill_loop trips i result
  = take i result ++ replicate trips underscore ++ drop (i + trips) result.
Proof.
  revert i result. induction trips as [|trips IH]; intros i result Hlen; simpl.
  - rewrite Nat.add_0_r. now rewrite take_drop.
  - rewrite IH by (rewrite length_insert; lia).
    rewrite (take_S_r (<[i:=underscore]> result) i underscore)
      by (apply list_lookup_insert_eq; lia).
    rewrite take_insert_ge by lia.
    rewrite drop_insert_lt by lia.
    replace (S i + trips)%nat with (i + S trips)%nat by lia.
    now rewrite <- app_assoc.
Qed.

Lemma bytes_of_string_app (s1 s2 : string) :
  bytes_of_string (s1 ++ s2) = bytes_of_string s1 ++ bytes_of_string s2.
Proof.
  unfold bytes_of_string. rewrite <- fmap_app. f_equal.
  induction s1 as [|c s1 IH]; simpl; [reflexivity | now rewrite IH].
Qed.

(** A string of [k] copies of one character, as bytes. *)
Lemma bytes_of_repeated (c : ascii) (k : nat) :
  bytes_of_string (string_of_list_ascii (replicate k c)) = replicate k (byte_of_ascii c).
Proof.
  unfold bytes_of_string.
  now rewrite list_ascii_of_string_of_list_ascii, fmap_replicate.
Qed.

(** Cutting a padded prefix gives the prefix padded to the shorter length. *)
Lemma take_padded (fill : Z) (p : list Z) (N M : nat) :
  (N <= M)%nat ->
  take N (take M p ++ replicate (M - length p) fill)
  = take N p ++ replicate (N - length p) fill.
Proof.
  intros Hle. rewrite take_app, take_take, length_take, take_replicate.
  replace (N `min` M)%nat with N by lia. f_equal. f_equal. lia.
Qed.

(** Fill bytes at the end of the prefix are absorbed by the padding. *)
Lemma padded_absorbs (fill : Z) (p : list Z) (k N : nat) :
  (length p + k <= N)%nat ->
  take N (p ++ replicate k fill) ++ replicate (N - length (p ++ replicate k fill)) fill
  = take N p ++ replicate (N - length p) fill.
Proof.
  intros Hle. rewrite length_app, length_replicate.
  rewrite !take_ge by (rewrite ?length_app, ?length_replicate; lia).
  rewrite <- app_assoc, <- replicate_add. do 2 f_equal. lia.
Qed.

Lemma replicate_eq_fill (k : nat) (x y : Z) :
  x <> y -> replicate k x = replicate k y -> k = 0%nat.
Proof. intros Hxy. destruct k as [|k]; [reflexivity | simpl; congruence]. Qed.

Lemma clamp_fits `{Runtime} (n : Z) : n <= maxAlloc -> 0 <= clamp n <= maxAlloc.
Proof.
  pose proof maxAlloc_pos. unfold clamp. destruct (Z.ltb_spec n 0); lia.
Qed.

Lemma clamp_beyond `{Runtime} (n : Z) : maxAlloc < n -> maxAlloc < clamp n.
Proof.
  pose proof maxAlloc_pos. unfold clamp. destruct (Z.ltb_spec n 0); lia.
Qed.

Section WithRuntime.
Context {rt : Runtime}.

(** The slice a call returns, prefix first and [fill] behind it. *)
Definition padded (fill : Z) (prefix : string) (n : Z) : list Z :=
  take (Z.to_nat (clamp n)) (bytes_of_string prefix)
    ++ replicate (Z.to_nat (clamp n) - length (bytes_of_string prefix)) fill.

Lemma length_padded (fill : Z) (prefix : string) (n : Z) :
  length (padded fill prefix n) = Z.to_nat (clamp n).
Proof. unfold padded. rewrite length_app, length_take, length_replicate. lia. Qed.

(** Both functions in closed form, for every prefix and every [n] the runtime
    allocates; beyond that both panic in [make]. *)
Lemma FillBytesZero_closed (prefix : string) (n : Z) :
  n <= maxAlloc -> FillBytesZero prefix n = Returned (padded 0 prefix n).
Proof.
  intros Hn. unfold FillBytesZero. fold (clamp n). fold (cut prefix n).
  rewrite make_bytes_fits by now apply clamp_fits. cbn [and_then]. f_equal.
  unfold padded. rewrite copy_zeroed; rewrite cut_bytes.
  - f_equal. rewrite length_take. f_equal. lia.
  - rewrite length_take. lia.
Qed.

Lemma FillBytes_closed (prefix : string) (n : Z) :
  n <= maxAlloc -> FillBytes prefix n = Returned (padded underscore prefix n).
Proof.
  intros Hn. unfold FillBytes. fold (clamp n). fold (cut prefix n).
  rewrite make_bytes_fits by now apply clamp_fits. cbn [and_then]. f_equal.
  unfold padded.
  pose proof (cut_bytes prefix n) as Hcut.
  assert (Hlen : length (bytes_of_string (cut prefix n))
                 = Nat.min (Z.to_nat (clamp n)) (length (bytes_of_string prefix))).
  { rewrite Hcut. apply length_take. }
  rewrite (len_string_bytes (cut prefix n)), Nat2Z.id.
  set (src := bytes_of_string (cut prefix n)) in *.
  rewrite length_copy, length_zeroed.
  rewrite fill_loop_spec by (rewrite length_copy, length_zeroed; lia).
  rewrite copy_zeroed by lia.
  rewrite take_app_length.
  rewrite drop_ge by (rewrite length_app, length_replicate; lia).
  rewrite app_nil_r, Hlen, Hcut. f_equal. f_equal. lia.
Qed.

Definition makeslice_len_panic : string := "makeslice: len out of range".

Lemma FillBytes_beyond (prefix : string) (n : Z) :
  maxAlloc < n ->
  FillBytes prefix n = RuntimePanic makeslice_len_panic /\
  FillBytesZero prefix n = RuntimePanic makeslice_len_panic.
Proof.
  intros Hn. unfold FillBytes, FillBytesZero. fold (clamp n).
  rewrite make_bytes_panics by (right; now apply clamp_beyond).
  split; reflexivity.
Qed.

(** What the padded slice holds, by the place of [n] against the prefix. *)
Lemma padded_spec (fill : Z) (prefix : string) (n : Z) :
  (len_string prefix <= n ->
     Z.of_nat (length (padded fill prefix n)) = n /\
     take (Z.to_nat (len_string prefix)) (padded fill prefix n) = bytes_of_string prefix /\
     forall i, len_string prefix <= i < n ->
               padded fill prefix n !! Z.to_nat i = Some fill) /\
  (0 <= n < len_string prefix ->
     padded fill prefix n = take (Z.to_nat n) (bytes_of_string prefix)) /\
  (n < 0 -> padded fill prefix n = []).
Proof.
  pose proof (Nat2Z.is_nonneg (String.length prefix)) as Hpos.
  unfold padded. rewrite len_string_bytes. unfold clamp.
  rewrite length_bytes_of_string in *.
  set (p := bytes_of_string prefix).
  assert (Hp : length p = String.length prefix) by apply length_bytes_of_string.
  destruct (Z.ltb_spec n 0) as [Hneg|Hnn];
    (split; [intros Hle | split; [intros Hlt | intros Hlt0]]); try lia.
  - reflexivity.
  - rewrite take_ge by lia. split; [|split].
    + rewrite length_app, length_replicate. lia.
    + rewrite Nat2Z.id, <- Hp. apply take_app_length.
    + intros i Hi. rewrite lookup_app_r by lia.
      apply lookup_replicate_2. lia.
  - replace (Z.to_nat n - String.length prefix)%nat with 0%nat by lia.
    apply app_nil_r.
Qed.

(** C5, amended. [FillBytes prefix n], for every prefix and every [n] up to
    the largest allocation of the runtime: when [len(prefix) <= n] the call
    returns a slice of exactly [n] bytes that starts with the prefix and
    holds the underscore everywhere behind it; when [0 <= n < len(prefix)] it
    returns the prefix cut to its first [n] bytes; a negative [n] gives what
    [n = 0] gives, the empty slice.  Beyond the largest allocation the call
    returns nothing: [make] panics. *)
Theorem FillBytes_pads (prefix : string) (n : Z) :
  (len_string prefix <= n -> n <= maxAlloc ->
     exists b,
       FillBytes prefix n = Returned b /\
       Z.of_nat (length b) = n /\
       take (Z.to_nat (len_string prefix)) b = bytes_of_string prefix /\
       forall i, len_string prefix <= i < n ->
                 b !! Z.to_nat i = Some (byte_of_ascii "_")) /\
  (0 <= n < len_string prefix -> n <= maxAlloc ->
     FillBytes prefix n = Returned (take (Z.to_nat n) (bytes_of_string prefix))) /\
  (n < 0 -> FillBytes prefix n = FillBytes prefix 0 /\ FillBytes prefix n = Returned []) /\
  (maxAlloc < n -> FillBytes prefix n = RuntimePanic "makeslice: len out of range").
Proof.
  pose proof maxAlloc_pos as Hcap.
  destruct (padded_spec underscore prefix n) as (Hpad & Hcut & Hneg).
  split; [|split; [|split]].
  - intros Hle Hn. exists (padded underscore prefix n).
    split; [now apply FillBytes_closed | now apply Hpad].
  - intros Hlt Hn. rewrite FillBytes_closed by exact Hn. f_equal. now apply Hcut.
  - intros Hlt. rewrite !FillBytes_closed by lia. split; f_equal.
    + rewrite (Hneg Hlt). unfold padded. reflexivity.
    + now apply Hneg.
  - intros Hn. apply FillBytes_beyond, Hn.
Qed.

(** C6, amended. [FillBytesZero prefix n], for every prefix and every [n] up
    to the largest allocation of the runtime: when [len(prefix) <= n] the
    call returns a slice of exactly [n] bytes that starts with the prefix and
    holds the zero byte everywhere behind it; when [0 <= n < len(prefix)] it
    returns the prefix cut to its first [n] bytes; a negative [n] gives what
    [n = 0] gives, the empty slice.  Beyond the largest allocation the call
    returns nothing: [make] panics. *)
Theorem FillBytesZero_pads (prefix : string) (n : Z) :
  (len_string prefix <= n -> n <= maxAlloc ->
     exists b,
       FillBytesZero prefix n = Returned b /\
       Z.of_nat (length b) = n /\
       take (Z.to_nat (len_string prefix)) b = bytes_of_string prefix /\
       forall i, len_string prefix <= i < n -> b !! Z.to_nat i = Some 0) /\
  (0 <= n < len_string prefix -> n <= maxAlloc ->
     FillBytesZero prefix n = Returned (take (Z.to_nat n) (bytes_of_string prefix))) /\
  (n < 0 ->
     FillBytesZero prefix n = FillBytesZero prefix 0 /\
     FillBytesZero prefix n = Returned []) /\
  (maxAlloc < n -> FillBytesZero prefix n = RuntimePanic "makeslice: len out of range").
Proof.
  pose proof maxAlloc_pos as Hcap.
  destruct (padded_spec 0 prefix n) as (Hpad & Hcut & Hneg).
  split; [|split; [|split]].
  - intros Hle Hn. exists (padded 0 prefix n).
    split; [now apply FillBytesZero_closed | now apply Hpad].
  - intros Hlt Hn. rewrite FillBytesZero_closed by exact Hn. f_equal. now apply Hcut.
  - intros Hlt. rewrite !FillBytesZero_closed by lia. split; f_equal.
    + rewrite (Hneg Hlt). unfold padded. reflexivity.
    + now apply Hneg.
  - intros Hn. apply FillBytes_beyond, Hn.
Qed.

(** *** The two helpers side by side *)

(** X1. For [0 <= n <= m] and [m] up to the largest allocation of the
    runtime, [FillBytes] returns for both lengths, and the first [n] bytes of
    [FillBytes prefix m] are [FillBytes prefix n]; the same holds of
    [FillBytesZero]: a padded slice that is cut is the slice padded to the
    shorter length. *)
Theorem FillBytes_take (prefix : string) (n m : Z) :
  0 <= n <= m -> m <= maxAlloc ->
  exists bm bn zm zn,
    FillBytes prefix m = Returned bm /\
    FillBytes prefix n = Returned bn /\
    take (Z.to_nat n) bm = bn /\
    FillBytesZero prefix m = Returned zm /\
    FillBytesZero prefix n = Returned zn /\
    take (Z.to_nat n) zm = zn.
Proof.
  intros Hnm Hm.
  exists (padded underscore prefix m), (padded underscore prefix n),
    (padded 0 prefix m), (padded 0 prefix n).
  rewrite !FillBytes_closed, !FillBytesZero_closed by lia.
  unfold padded, clamp.
  destruct (Z.ltb_spec n 0), (Z.ltb_spec m 0); try lia.
  repeat split; apply take_padded; lia.
Qed.

(** X2. For every prefix and every [n] up to the largest allocation of the
    runtime, [FillBytes prefix n] and [FillBytesZero prefix n] return slices
    of the same length, [max(n, 0)]; the slices hold the same bytes wherever
    the prefix reaches; and they are the same slice exactly when nothing is
    padded, that is when [n <= len(prefix)].  Beyond the largest allocation
    both calls panic in [make]. *)
Theorem FillBytes_FillBytesZero (prefix : string) (n : Z) :
  (n <= maxAlloc ->
     exists b z,
       FillBytes prefix n = Returned b /\
       FillBytesZero prefix n = Returned z /\
       Z.of_nat (length b) = Z.max 0 n /\
       Z.of_nat (length z) = Z.max 0 n /\
       (forall i, (i < String.length prefix)%nat -> b !! i = z !! i) /\
       (b = z <-> n <= len_string prefix)) /\
  (maxAlloc < n ->
     FillBytes prefix n = RuntimePanic "makeslice: len out of range" /\
     FillBytesZero prefix n = RuntimePanic "makeslice: len out of range").
Proof.
  split; [|apply FillBytes_beyond]. intros Hn.
  exists (padded underscore prefix n), (padded 0 prefix n).
  split; [now apply FillBytes_closed|]. split; [now apply FillBytesZero_closed|].
  pose proof (length_bytes_of_string prefix) as Hp.
  rewrite !length_padded. unfold padded, len_string.
  rewrite <- Hp. set (p := bytes_of_string prefix) in *.
  assert (HN : Z.of_nat (Z.to_nat (clamp n)) = Z.max 0 n)
    by (unfold clamp; destruct (Z.ltb_spec n 0); lia).
  set (N := Z.to_nat (clamp n)) in *.
  split; [exact HN|]. split; [exact HN|]. split.
  - intros i Hi. destruct (decide (i < N)%nat) as [Hlt|Hge].
    + rewrite !lookup_app_l by (rewrite length_take; lia). reflexivity.
    + rewrite !lookup_ge_None_2
        by (rewrite length_app, length_take, length_replicate; lia).
      reflexivity.
  - split.
    + intros Heq. apply app_inv_head in Heq.
      apply replicate_eq_fill in Heq; [lia | discriminate].
    + intros Hle. replace (N - length p)%nat with 0%nat by lia. reflexivity.
Qed.

(** X3. Padding cannot be told from fill bytes the prefix ends with: when
    [len(prefix) + k <= n], [FillBytes] gives the same slice for the prefix
    and for the prefix followed by [k] underscores, and [FillBytesZero] the
    same slice for the prefix and for the prefix followed by [k] zero bytes.
    Neither helper is injective in its prefix. *)
Theorem FillBytes_absorbs_fill (prefix : string) (k : nat) (n : Z) :
  len_string prefix + Z.of_nat k <= n ->
  FillBytes (prefix ++ string_of_list_ascii (replicate k "_"%char)) n
  = FillBytes prefix n /\
  FillBytesZero (prefix ++ string_of_list_ascii (replicate k Ascii.zero)) n
  = FillBytesZero prefix n.
Proof.
  intros Hle. destruct (Z.le_gt_cases n maxAlloc) as [Hn|Hn].
  - rewrite len_string_bytes in Hle.
    rewrite !FillBytes_closed, !FillBytesZero_closed by exact Hn.
    unfold padded. rewrite !bytes_of_string_app, !bytes_of_repeated.
    assert (HN : (length (bytes_of_string prefix) + k <= Z.to_nat (clamp n))%nat)
      by (unfold clamp; destruct (Z.ltb_spec n 0); lia).
    split; f_equal; apply padded_absorbs; exact HN.
  - destruct (FillBytes_beyond prefix n Hn) as [-> ->].
    split; [apply (FillBytes_beyond _ n Hn) | apply (FillBytes_beyond _ n Hn)].
Qed.

(** X4. Without a prefix the helpers return the fill alone: for every [n]
    up to the largest allocation of the runtime, [FillBytes "" n] returns
    [max(n, 0)] underscores and [FillBytesZero "" n] as many zero bytes; for
    every [n] whatever, [FillBytesZero "" n] is what [make([]byte, max(n, 0))]
    is, the panic included. *)
Theorem FillBytes_empty_prefix (n : Z) :
  (n <= maxAlloc ->
     FillBytes "" n = Returned (replicate (Z.to_nat n) underscore) /\
     FillBytesZero "" n = Returned (replicate (Z.to_nat n) 0)) /\
  FillBytesZero "" n = make_bytes (Z.max 0 n).
Proof.
  assert (Hpad : forall fill, padded fill "" n = replicate (Z.to_nat n) fill).
  { intros fill. unfold padded, clamp. change (bytes_of_string "") with (@nil Z).
    rewrite take_nil. cbn [length app]. rewrite Nat.sub_0_r.
    destruct (Z.ltb_spec n 0) as [Hneg|Hnn]; [|reflexivity].
    now replace (Z.to_nat n) with 0%nat by lia. }
  split.
  - intros Hn. rewrite FillBytes_closed, FillBytesZero_closed, !Hpad by exact Hn.
    split; reflexivity.
  - replace (Z.max 0 n) with (clamp n)
      by (unfold clamp; destruct (Z.ltb_spec n 0); lia).
    destruct (Z.le_gt_cases n maxAlloc) as [Hn|Hn].
    + rewrite FillBytesZero_closed, make_bytes_fits, Hpad by now try apply clamp_fits.
      unfold zeroed, clamp. destruct (Z.ltb_spec n 0) as [Hneg|Hnn]; [|reflexivity].
      now replace (Z.to_nat n) with 0%nat by lia.
    + rewrite make_bytes_panics by (right; now apply clamp_beyond).
      apply FillBytes_beyond, Hn.
Qed.

End WithRuntime.

(** *** The helpers on linux/amd64 *)

#[local] Existing Instance linux_amd64.

Lemma FillBytes_pads_witness :
  (exists b,
     FillBytes "ab" 5 = Returned b /\
     Z.of_nat (length b) = 5 /\
     take (Z.to_nat (len_string "ab")) b = bytes_of_string "ab" /\
     forall i, len_string "ab" <= i < 5 -> b !! Z.to_nat i = Some (byte_of_ascii "_")) /\
  FillBytes "abcdef" 3 = Returned (take (Z.to_nat 3) (bytes_of_string "abcdef")) /\
  (FillBytes "ab" (-4) = FillBytes "ab" 0 /\ FillBytes "ab" (-4) = Returned []) /\
  FillBytes "ab" (2 ^ 48 + 1) = RuntimePanic "makeslice: len out of range".
Proof.
  split; [|split; [|split]].
  - apply (proj1 (FillBytes_pads "ab" 5)); vm_compute; discriminate.
  - apply (proj1 (proj2 (FillBytes_pads "abcdef" 3)));
      vm_compute; try (split; [discriminate | reflexivity]); discriminate.
  - apply (proj1 (proj2 (proj2 (FillBytes_pads "ab" (-4))))). reflexivity.
  - apply (proj2 (proj2 (proj2 (FillBytes_pads "ab" (2 ^ 48 + 1))))). reflexivity.
Defined.

(** C5 as stated fails: asked for [2^62] bytes, [FillBytes] returns no slice
    at all, of length [2^62] or any other; [make] panics. *)
Lemma FillBytes_beyond_allocation :
  FillBytes "ab" (2 ^ 62) = RuntimePanic "makeslice: len out of range" /\
  len_string "ab" <= 2 ^ 62 /\
  forall b, FillBytes "ab" (2 ^ 62) <> Returned b.
Proof.
  assert (Hp : FillBytes "ab" (2 ^ 62) = RuntimePanic "makeslice: len out of range")
    by (apply FillBytes_beyond; reflexivity).
  split; [exact Hp|]. split; [vm_compute; discriminate|].
  intros b Hb. rewrite Hp in Hb. discriminate.
Qed.

Lemma FillBytesZero_pads_witness :
  (exists b,
     FillBytesZero "ab" 5 = Returned b /\
     Z.of_nat (length b) = 5 /\
     take (Z.to_nat (len_string "ab")) b = bytes_of_string "ab" /\
     forall i, len_string "ab" <= i < 5 -> b !! Z.to_nat i = Some 0) /\
  FillBytesZero "abcdef" 3 = Returned (take (Z.to_nat 3) (bytes_of_string "abcdef")) /\
  (FillBytesZero "ab" (-4) = FillBytesZero "ab" 0 /\
   FillBytesZero "ab" (-4) = Returned []) /\
  FillBytesZero "ab" (2 ^ 48 + 1) = RuntimePanic "makeslice: len out of range".
Proof.
  split; [|split; [|split]].
  - apply (proj1 (FillBytesZero_pads "ab" 5)); vm_compute; discriminate.
  - apply (proj1 (proj2 (FillBytesZero_pads "abcdef" 3)));
      vm_compute; try (split; [discriminate | reflexivity]); discriminate.
  - apply (proj1 (proj2 (proj2 (FillBytesZero_pads "ab" (-4))))). reflexivity.
  - apply (proj2 (proj2 (proj2 (FillBytesZero_pads "ab" (2 ^ 48 + 1))))). reflexivity.
Defined.

(** C6 as stated fails in the same way. *)
Lemma FillBytesZero_beyond_allocation :
  FillBytesZero "ab" (2 ^ 62) = RuntimePanic "makeslice: len out of range" /\
  len_string "ab" <= 2 ^ 62 /\
  forall b, FillBytesZero "ab" (2 ^ 62) <> Returned b.
Proof.
  assert (Hp : FillBytesZero "ab" (2 ^ 62) = RuntimePanic "makeslice: len out of range")
    by (apply FillBytes_beyond; reflexivity).
  split; [exact Hp|]. split; [vm_compute; discriminate|].
  intros b Hb. rewrite Hp in Hb. discriminate.
Qed.

(** Both helpers on a short prefix. *)
Example FillBytes_example : FillBytes "ab" 5 = Returned (bytes_of_string "ab___").
Proof. reflexivity. Qed.

Example FillBytesZero_example : FillBytesZero "ab" 5 = Returned [97; 98; 0; 0; 0].
Proof. reflexivity. Qed.

Lemma FillBytes_take_witness :
  (0 <= 3 <= 6 /\ 6 <= maxAlloc) /\
  exists bm bn zm zn,
    FillBytes "ab" 6 = Returned bm /\
    FillBytes "ab" 3 = Returned bn /\
    take (Z.to_nat 3) bm = bn /\
    FillBytesZero "ab" 6 = Returned zm /\
    FillBytesZero "ab" 3 = Returned zn /\
    take (Z.to_nat 3) zm = zn.
Proof.
  split; [split; [lia | vm_compute; discriminate]|].
  apply (FillBytes_take "ab" 3 6); [lia | vm_compute; discriminate].
Defined.

Lemma FillBytes_absorbs_fill_witness :
  len_string "ab" + Z.of_nat 2 <= 5 /\
  FillBytes "ab__" 5 = FillBytes "ab" 5 /\
  FillBytes "ab__" 5 = Returned (bytes_of_string "ab___").
Proof.
  split; [vm_compute; discriminate|].
  split; [|reflexivity].
  refine (proj1 (FillBytes_absorbs_fill "ab" 2 5 _)). vm_compute. discriminate.
Defined.

End FillFacts.

(** ** The keystone fixture builder *)

Module KeystoneFacts.
Import Keystones.

Section Index.
Context {K : Type} `{Countable K} {V : Type}.

(** A map filled by successive insertions holds the keys inserted, and as
    many entries as there are distinct keys among them. *)
Lemma dom_foldl_insert {A : Type} (key : A -> K) (val : A -> V)
    (m : gmap K V) (l : list A) :
  dom (foldl (fun acc a => <[key a := val a]> acc) m l)
  = dom m ∪ list_to_set (key <$> l).
Proof.
  revert m. induction l as [|a l IH]; intros m.
  - cbn [foldl fmap list_fmap]. rewrite list_to_set_nil.
    now rewrite (right_id_L ∅ (∪)).
  - cbn [foldl fmap list_fmap]. rewrite IH, dom_insert_L, list_to_set_cons.
    now rewrite (assoc_L (∪)), (comm_L (∪) (dom m)).
Qed.

Lemma size_list_to_set_le (l : list K) :
  (size (list_to_set l : gset K) <= length l)%nat.
Proof.
  induction l as [|x l IH].
  - rewrite list_to_set_nil, size_empty. reflexivity.
  - rewrite list_to_set_cons, size_union_alt, size_singleton.
    assert (Hle : (size (list_to_set l ∖ {[x]} : gset K)
                   <= size (list_to_set l : gset K))%nat)
      by (apply subseteq_size, subseteq_difference_l; reflexivity).
    simpl. lia.
Qed.

Lemma size_list_to_set_NoDup (l : list K) :
  size (list_to_set l : gset K) = length l <-> NoDup l.
Proof.
  split; [|apply size_list_to_set].
  induction l as [|x l IH]; intros Hsize.
  - constructor.
  - rewrite list_to_set_cons in Hsize. simpl in Hsize.
    pose proof (size_list_to_set_le l) as Hle.
    destruct (decide (x ∈ l)) as [Hin|Hnin].
    + exfalso.
      rewrite (subseteq_union_1_L {[x]} (list_to_set l : gset K)) in Hsize.
      * lia.
      * apply singleton_subseteq_l, elem_of_list_to_set, Hin.
    + constructor; [exact Hnin|]. apply IH.
      rewrite size_union, size_singleton in Hsize.
      * lia.
      * apply disjoint_singleton_l. now rewrite elem_of_list_to_set.
Qed.

End Index.

Section Builder.
Context {rt : Runtime} {sha : Sha256} {abr : Abbreviation}.

(** The byte every hash input of iteration [ci] is made of (line
    [x := uint8(ci + 1)]), and the record the iteration appends, in closed
    form. *)
Definition keystone_byte (ci : Z) : byte := uint8 (ci + 1).

Definition keystone_at (ci : Z) : L2Keystone :=
  let x := keystone_byte ci in
  {| Version := 1;
     L1BlockNumber := uint32 (10000 + ci + 1);
     L2BlockNumber := uint32 (uint32 (ci + 1) * 25);
     ParentEPHash := SHA256 [x; x];
     PrevKeystoneEPHash := SHA256 [uint8 ci];
     StateRoot := SHA256 [x; x; x];
     EPHash := SHA256 [x] |}.

Definition keystone_key (k : L2Keystone) : list byte :=
  AbrevHash (L2KeystoneAbbreviate k).

(** The index the loop builds over a list of records. *)
Definition index_of (ks : list L2Keystone)
  : gmap (list Z) L2KeystoneAbrev :=
  foldl (fun acc k => <[keystone_key k := L2KeystoneAbbreviate k]> acc) ∅ ks.

Definition first_keystones (n : Z) : list L2Keystone :=
  keystone_at <$> seqZ 0 n.

(** What the loop maintains about [prevKeystone] on entering iteration [ci]. *)
Definition linked (ci : Z) (st : builder) : Prop :=
  EPHash (prevKeystone st) = SHA256 [uint8 ci] /\
  L1BlockNumber (prevKeystone st) = uint32 (10000 + ci).

Lemma iteration_spec (ci : Z) (st : builder) :
  linked ci st ->
  iteration ci st
  = {| prevKeystone := keystone_at ci;
       kssMap := <[keystone_key (keystone_at ci) := L2KeystoneAbbreviate (keystone_at ci)]>
                   (kssMap st);
       kssList := kssList st ++ [keystone_at ci] |}.
Proof.
  intros [Hep Hl1]. unfold iteration, keystone_at, keystone_key, keystone_byte.
  rewrite Hep, Hl1, uint32_add_l. reflexivity.
Qed.

Lemma linked_next (ci : Z) (st : builder) :
  linked ci st -> linked (ci + 1) (iteration ci st).
Proof.
  intros Hl. rewrite iteration_spec by exact Hl. split; simpl.
  - reflexivity.
  - unfold uint32. f_equal. lia.
Qed.

Lemma range_loop_spec (trips : nat) (ci : Z) (st : builder) :
  linked ci st ->
  let ks := keystone_at <$> seqZ ci (Z.of_nat trips) in
  kssList (range_loop trips ci st) = kssList st ++ ks /\
  kssMap (range_loop trips ci st)
  = foldl (fun acc k => <[keystone_key k := L2KeystoneAbbreviate k]> acc) (kssMap st) ks.
Proof.
  revert ci st. induction trips as [|trips IH]; intros ci st Hl; cbv zeta.
  - simpl. rewrite app_nil_r. split; reflexivity.
  - rewrite seqZ_cons by lia.
    replace (Z.pred (Z.of_nat (S trips))) with (Z.of_nat trips) by lia.
    replace (Z.succ ci) with (ci + 1) by lia.
    cbn [range_loop fmap list_fmap foldl].
    destruct (IH (ci + 1) (iteration ci st) (linked_next _ _ Hl)) as [Hlist Hmap].
    rewrite Hlist, Hmap, (iteration_spec _ _ Hl). cbn [kssList kssMap].
    rewrite <- app_assoc. split; reflexivity.
Qed.

Lemma linked_genesis :
  linked 0 {| prevKeystone := genesis; kssMap := ∅; kssList := [] |}.
Proof. split; reflexivity. Qed.

(** The builder in closed form, for every [n] whose records the runtime
    allocates; for every other [n] the call panics in [make]. *)
Lemma MakeSharedKeystones_spec (n : Z) :
  0 <= n -> sizeof_L2Keystone * n <= maxAlloc ->
  MakeSharedKeystones n = Returned (index_of (first_keystones n), first_keystones n).
Proof.
  intros Hn Hcap. unfold MakeSharedKeystones, make_with_cap.
  rewrite (proj2 (makeslice_fits_spec _ n)) by auto. cbn [and_then].
  destruct (range_loop_spec (Z.to_nat n) 0 _ linked_genesis) as [Hlist Hmap].
  rewrite Z2Nat.id in Hlist, Hmap by lia.
  cbv zeta. rewrite Hlist, Hmap. reflexivity.
Qed.

Lemma MakeSharedKeystones_panics (n : Z) :
  n < 0 \/ maxAlloc < sizeof_L2Keystone * n ->
  MakeSharedKeystones n = RuntimePanic "makeslice: cap out of range".
Proof.
  intros Hn. unfold MakeSharedKeystones, make_with_cap.
  now rewrite (proj2 (makeslice_fits_false _ n)) by exact Hn.
Qed.

(** What [MakeSharedKeystones] returns when it returns. *)
Lemma MakeSharedKeystones_returned (n : Z) m l :
  MakeSharedKeystones n = Returned (m, l) ->
  (0 <= n /\ sizeof_L2Keystone * n <= maxAlloc) /\
  m = index_of (first_keystones n) /\ l = first_keystones n.
Proof.
  intros Hret.
  destruct (makeslice_fits sizeof_L2Keystone n) eqn:Hfits.
  - apply makeslice_fits_spec in Hfits as [Hn Hcap].
    rewrite MakeSharedKeystones_spec in Hret by assumption.
    injection Hret as <- <-. auto.
  - apply makeslice_fits_false in Hfits.
    rewrite MakeSharedKeystones_panics in Hret by exact Hfits. discriminate.
Qed.

Lemma length_first_keystones (n : Z) :
  0 <= n -> Z.of_nat (length (first_keystones n)) = n.
Proof.
  intros Hn. unfold first_keystones. rewrite length_fmap, length_seqZ. lia.
Qed.

Lemma lookup_first_keystones (n i : Z) :
  0 <= i < n -> first_keystones n !! Z.to_nat i = Some (keystone_at i).
Proof.
  intros Hi. unfold first_keystones. rewrite list_lookup_fmap.
  rewrite (lookup_seqZ_lt 0 n (Z.to_nat i)) by lia.
  simpl. f_equal. f_equal. lia.
Qed.

Lemma dom_index_of (ks : list L2Keystone) :
  dom (index_of ks) = list_to_set (keystone_key <$> ks).
Proof.
  unfold index_of. rewrite dom_foldl_insert, dom_empty_L.
  now rewrite (left_id_L ∅ (∪)).
Qed.

Lemma size_index_of (ks : list L2Keystone) :
  size (index_of ks) = size (list_to_set (keystone_key <$> ks) : gset (list Z)).
Proof. now rewrite <- size_dom, dom_index_of. Qed.

(** Loop indices [2^32] apart produce the same record: the byte and both
    block numbers wrap around together. *)
Lemma keystone_at_shift (ci : Z) : keystone_at (ci + 2 ^ 32) = keystone_at ci.
Proof.
  unfold keystone_at, keystone_byte.
  replace (10000 + (ci + 2 ^ 32) + 1) with (10000 + ci + 1 + 2 ^ 32) by lia.
  replace (ci + 2 ^ 32 + 1) with (ci + 1 + 2 ^ 32) by lia.
  now rewrite !uint32_shift, !uint8_shift.
Qed.

Lemma keystone_at_wrap (k : nat) (ci : Z) :
  keystone_at (ci + Z.of_nat k * 2 ^ 32) = keystone_at ci.
Proof.
  induction k as [|k IH].
  - f_equal. lia.
  - replace (ci + Z.of_nat (S k) * 2 ^ 32) with (ci + Z.of_nat k * 2 ^ 32 + 2 ^ 32) by lia.
    now rewrite keystone_at_shift.
Qed.

Lemma keystone_at_mod (ci : Z) :
  0 <= ci -> keystone_at ci = keystone_at (ci mod 2 ^ 32).
Proof.
  intros Hci. rewrite <- (keystone_at_wrap (Z.to_nat (ci / 2 ^ 32)) (ci mod 2 ^ 32)).
  f_equal. rewrite Z2Nat.id by (apply Z.div_pos; lia).
  rewrite (Z.div_mod ci (2 ^ 32)) at 1 by lia. lia.
Qed.

(** Below [2^32] records the layer-1 block numbers tell the records apart. *)
Lemma keystone_at_inj (i j : Z) :
  0 <= i < 2 ^ 32 -> 0 <= j < 2 ^ 32 -> keystone_at i = keystone_at j -> i = j.
Proof.
  intros Hi Hj Heq. apply (f_equal L1BlockNumber) in Heq.
  unfold keystone_at, uint32 in Heq. cbn [L1BlockNumber] in Heq.
  change (2 ^ 32) with 4294967296 in *.
  Z.div_mod_to_equations. lia.
Qed.

Lemma NoDup_first_keystones (n : Z) : n <= 2 ^ 32 -> NoDup (first_keystones n).
Proof.
  intros Hn. unfold first_keystones.
  apply NoDup_fmap_2_strong; [|apply NoDup_seqZ].
  intros i j Hi Hj. rewrite elem_of_seqZ in Hi, Hj.
  apply keystone_at_inj; lia.
Qed.

(** When the records repeat with period [N], the index never holds more
    than [N] entries, however many records are asked for. *)
Lemma size_index_of_periodic (N n : Z) :
  0 < N ->
  (forall ci, 0 <= ci -> keystone_at ci = keystone_at (ci mod N)) ->
  Z.of_nat (size (index_of (first_keystones n))) <= N.
Proof.
  intros HN Hperiod. rewrite size_index_of.
  assert (Hsub : (list_to_set (keystone_key <$> first_keystones n) : gset (list Z))
                 ⊆ list_to_set (keystone_key <$> first_keystones N)).
  { intros key. rewrite !elem_of_list_to_set, !list_elem_of_fmap.
    intros (k & -> & Hk). unfold first_keystones in Hk.
    apply list_elem_of_fmap in Hk as (i & -> & Hi). apply elem_of_seqZ in Hi.
    exists (keystone_at i). split; [reflexivity|].
    rewrite Hperiod by lia. unfold first_keystones.
    apply list_elem_of_fmap. exists (i mod N). split; [reflexivity|].
    apply elem_of_seqZ. pose proof (Z.mod_pos_bound i N). lia. }
  apply subseteq_size in Hsub.
  pose proof (size_list_to_set_le (keystone_key <$> first_keystones N)) as Hle.
  rewrite length_fmap in Hle. unfold first_keystones at 2 in Hle.
  rewrite length_fmap, length_seqZ in Hle. lia.
Qed.

Lemma size_index_of_first_keystones (n : Z) :
  Z.of_nat (size (index_of (first_keystones n))) <= 2 ^ 32.
Proof.
  apply size_index_of_periodic; [reflexivity | apply keystone_at_mod].
Qed.

(** *** The index against the slice *)

Lemma index_of_snoc (ks : list L2Keystone) (k : L2Keystone) :
  index_of (ks ++ [k]) = <[keystone_key k := L2KeystoneAbbreviate k]> (index_of ks).
Proof. unfold index_of. now rewrite foldl_snoc. Qed.

(** Whatever the index holds was put there for a record of the list. *)
Lemma lookup_index_of_Some (ks : list L2Keystone) (key : list Z) (a : L2KeystoneAbrev) :
  index_of ks !! key = Some a ->
  exists k, k ∈ ks /\ keystone_key k = key /\ a = L2KeystoneAbbreviate k.
Proof.
  induction ks as [|k ks IH] using rev_ind; intros Hlook.
  - unfold index_of in Hlook. cbn [foldl] in Hlook.
    rewrite lookup_empty in Hlook. discriminate.
  - rewrite index_of_snoc in Hlook.
    apply lookup_insert_Some in Hlook as [[<- <-] | [_ Hlook]].
    + exists k. split; [|split; reflexivity].
      apply elem_of_app. right. now apply list_elem_of_singleton.
    + destruct (IH Hlook) as (k' & Hin & Hkey & Ha).
      exists k'. split; [|split; assumption]. apply elem_of_app. now left.
Qed.

(** Every record of the list is found under its key; what is found there
    is the abbreviation of a record with that key. *)
Lemma lookup_index_of_elem (ks : list L2Keystone) (k : L2Keystone) :
  k ∈ ks ->
  exists k', k' ∈ ks /\ keystone_key k' = keystone_key k /\
             index_of ks !! keystone_key k = Some (L2KeystoneAbbreviate k').
Proof.
  intros Hin.
  assert (Hdom : keystone_key k ∈ dom (index_of ks)).
  { rewrite dom_index_of, elem_of_list_to_set, list_elem_of_fmap. eauto. }
  apply elem_of_dom in Hdom as [a Ha].
  destruct (lookup_index_of_Some _ _ _ Ha) as (k' & Hin' & Hkey & ->). eauto.
Qed.

(** Keys without repetition tell the records of a list apart. *)
Lemma keystone_key_inj_on (ks : list L2Keystone) (k k' : L2Keystone) :
  NoDup (keystone_key <$> ks) -> k ∈ ks -> k' ∈ ks ->
  keystone_key k' = keystone_key k -> k' = k.
Proof.
  intros Hnd Hin Hin' Hkey.
  apply list_elem_of_lookup in Hin as [i Hi], Hin' as [j Hj].
  assert (Hij : j = i).
  { apply (NoDup_lookup _ _ _ (keystone_key k) Hnd); rewrite list_lookup_fmap.
    - rewrite Hj. simpl. now rewrite Hkey.
    - now rewrite Hi. }
  subst j. congruence.
Qed.

(** The record at a position of the fixture. *)
Lemma lookup_first_keystones_nat (n : Z) (i : nat) (k : L2Keystone) :
  first_keystones n !! i = Some k -> k = keystone_at (Z.of_nat i) /\ Z.of_nat i < n.
Proof.
  unfold first_keystones. rewrite list_lookup_fmap. intros Hlook.
  destruct (seqZ 0 n !! i) as [z|] eqn:Hz; [|discriminate].
  apply lookup_seqZ in Hz as [-> Hlt]. injection Hlook as <-.
  split; [reflexivity | exact Hlt].
Qed.

Lemma first_keystones_app (n d : Z) :
  0 <= n -> 0 <= d ->
  first_keystones (n + d) = first_keystones n ++ (keystone_at <$> seqZ n d).
Proof.
  intros Hn Hd. unfold first_keystones.
  now rewrite seqZ_app, fmap_app by lia.
Qed.

(** The abbreviated hashes tell the records of a list apart: the content
    hash meets no collision among them. *)
Definition collision_free (l : list L2Keystone) : Prop :=
  forall k k', k ∈ l -> k' ∈ l -> keystone_key k = keystone_key k' -> k = k'.

Lemma collision_free_NoDup (l : list L2Keystone) :
  NoDup (keystone_key <$> l) -> collision_free l.
Proof.
  intros Hnd k k' Hin Hin' Hkey. symmetry.
  now apply (keystone_key_inj_on l k k' Hnd).
Qed.

(** Records [2^32] apart in the fixture are the same record. *)
Lemma first_keystones_period (n i : Z) :
  0 <= i -> i + 2 ^ 32 < n ->
  first_keystones n !! Z.to_nat i = first_keystones n !! Z.to_nat (i + 2 ^ 32).
Proof.
  intros Hi Hlt.
  rewrite (lookup_first_keystones n i), (lookup_first_keystones n (i + 2 ^ 32)) by lia.
  now rewrite keystone_at_shift.
Qed.

(** C1. For every [n >= 1], the records [MakeSharedKeystones n] returns form
    a hash-linked chain: there are [n] of them, record 0 carries, as
    [PrevKeystoneEPHash], the [EPHash] of the synthetic genesis record, which
    is [SHA256] of the single byte 0, and every record [i] with [1 <= i < n]
    carries the [EPHash] of record [i - 1].  The call returns whenever the
    runtime allocates room for [n] records. *)
Theorem keystones_chain (n : Z) :
  1 <= n ->
  (sizeof_L2Keystone * n <= maxAlloc ->
   exists m l, MakeSharedKeystones n = Returned (m, l)) /\
  forall m l,
    MakeSharedKeystones n = Returned (m, l) ->
    Z.of_nat (length l) = n /\
    (exists k0, l !! 0%nat = Some k0 /\
                PrevKeystoneEPHash k0 = EPHash genesis /\
                EPHash genesis = SHA256 [0]) /\
    (forall i, 1 <= i < n ->
       exists k k', l !! Z.to_nat i = Some k /\ l !! Z.to_nat (i - 1) = Some k' /\
                    PrevKeystoneEPHash k = EPHash k').
Proof.
  intros Hn. split.
  - intros Hcap. eexists _, _. apply MakeSharedKeystones_spec; [lia | exact Hcap].
  - intros m l Hret. apply MakeSharedKeystones_returned in Hret as (_ & _ & ->).
    split; [apply length_first_keystones; lia|]. split.
    + exists (keystone_at 0). split; [|split; reflexivity].
      apply (lookup_first_keystones n 0). lia.
    + intros i Hi. exists (keystone_at i), (keystone_at (i - 1)).
      split; [apply lookup_first_keystones; lia|].
      split; [apply lookup_first_keystones; lia|].
      unfold keystone_at, keystone_byte. cbn [PrevKeystoneEPHash EPHash].
      do 3 f_equal. lia.
Qed.

(** C2, amended. For every [n >= 0] whose records the runtime allocates
    ([n] records of 112 bytes within [maxAlloc]), [MakeSharedKeystones n]
    returns a slice of exactly [n] records and a map whose keys are the
    abbreviated content hashes of these records.  Up to [n = 2^32] the records
    are pairwise distinct and the map holds exactly [n] entries, provided the
    content hash meets no collision among the records.  Beyond [2^32] the
    records at [i] and [i + 2^32] are the same record and the map holds at
    most [2^32] entries, fewer than [n].  For [n = 0] the slice and the map
    are empty.  For every other [n], negative or beyond what the runtime
    allocates, the call returns nothing: [make] panics. *)
Theorem keystones_count (n : Z) :
  (0 <= n -> sizeof_L2Keystone * n <= maxAlloc ->
   exists m l,
     MakeSharedKeystones n = Returned (m, l) /\
     Z.of_nat (length l) = n /\
     dom m = list_to_set (keystone_key <$> l) /\
     (n <= 2 ^ 32 -> NoDup l) /\
     (n <= 2 ^ 32 -> collision_free l -> Z.of_nat (size m) = n) /\
     (forall i, 0 <= i -> i + 2 ^ 32 < n ->
        l !! Z.to_nat i = l !! Z.to_nat (i + 2 ^ 32)) /\
     (2 ^ 32 < n -> Z.of_nat (size m) <= 2 ^ 32 /\ Z.of_nat (size m) < n) /\
     Z.of_nat (size m) <= n /\
     (Z.of_nat (size m) = n <-> NoDup (keystone_key <$> l)) /\
     (n = 0 -> m = ∅ /\ l = [])) /\
  (n < 0 \/ maxAlloc < sizeof_L2Keystone * n ->
   MakeSharedKeystones n = RuntimePanic "makeslice: cap out of range").
Proof.
  split; [|apply MakeSharedKeystones_panics]. intros Hn Hcap.
  exists (index_of (first_keystones n)), (first_keystones n).
  pose proof (length_first_keystones n Hn) as Hlen.
  pose proof (size_list_to_set_le (keystone_key <$> first_keystones n)) as Hle.
  pose proof (size_index_of_first_keystones n) as Hwrap.
  rewrite length_fmap in Hle.
  split; [now apply MakeSharedKeystones_spec|].
  split; [exact Hlen|].
  split; [apply dom_index_of|].
  split; [apply NoDup_first_keystones|].
  split.
  { intros Hsmall Hfree. rewrite size_index_of, size_list_to_set, length_fmap; [exact Hlen|].
    apply NoDup_fmap_2_strong; [|now apply NoDup_first_keystones].
    intros k k' Hin Hin' Hkey. now apply Hfree. }
  split; [intros i; apply first_keystones_period|].
  split; [intros Hbig; split; [exact Hwrap | lia]|].
  rewrite size_index_of in *. split; [lia|]. split.
  - rewrite <- size_list_to_set_NoDup, length_fmap. lia.
  - intros ->. split; reflexivity.
Qed.

(** C4, amended. [MakeSharedKeystones] is a function of [n] alone: two
    invocations give the same outcome (the same panic when [make] refuses
    [n]), the map is the index of the returned slice, and record [ci] is made
    of numbers computed from [ci] and of
    [SHA256] applied to one, two and three copies of the byte
    [x = (ci + 1) mod 256], which is [ci + 1] as long as [ci < 255]. *)
Theorem keystones_from_index (n : Z) :
  (forall r1 r2, MakeSharedKeystones n = r1 -> MakeSharedKeystones n = r2 -> r1 = r2) /\
  (n < 0 \/ maxAlloc < sizeof_L2Keystone * n ->
   MakeSharedKeystones n = RuntimePanic "makeslice: cap out of range") /\
  (0 <= n -> sizeof_L2Keystone * n <= maxAlloc ->
   exists m l,
     MakeSharedKeystones n = Returned (m, l) /\
     m = index_of l /\
     forall ci, 0 <= ci < n ->
       exists x,
         x = keystone_byte ci /\ x = (ci + 1) mod 256 /\ (ci < 255 -> x = ci + 1) /\
         l !! Z.to_nat ci
         = Some {| Version := 1;
                   L1BlockNumber := (10000 + ci + 1) mod 2 ^ 32;
                   L2BlockNumber := ((ci + 1) mod 2 ^ 32 * 25) mod 2 ^ 32;
                   ParentEPHash := SHA256 [x; x];
                   PrevKeystoneEPHash := SHA256 [ci mod 256];
                   StateRoot := SHA256 [x; x; x];
                   EPHash := SHA256 [x] |}).
Proof.
  split; [congruence|]. split; [apply MakeSharedKeystones_panics|]. intros Hn Hcap.
  eexists _, _. split; [now apply MakeSharedKeystones_spec|].
  split; [reflexivity|]. intros ci Hci. exists (keystone_byte ci).
  split; [reflexivity|]. split; [reflexivity|]. split.
  - intros Hlt. unfold keystone_byte, uint8. apply Z.mod_small. lia.
  - apply lookup_first_keystones. lia.
Qed.

(** C7. [SHA256] is a function of its input, and its result has 32 bytes
    whatever the input: hashing an input twice gives the same digest, and any
    two digests have the same length. *)
Theorem SHA256_fixed_size (x y : list Z) :
  SHA256 x = SHA256 x /\
  length (SHA256 x) = length (SHA256 y) /\
  length (SHA256 x) = 32%nat.
Proof.
  unfold SHA256. rewrite !length_vec_to_list. repeat split.
Qed.

(** *** The fixture as a whole *)

(** X5. The map [MakeSharedKeystones] returns matches the slice it returns:
    every record of the slice is found in the map under its abbreviated hash,
    and what is stored there is the abbreviation of a record of the slice
    with that hash; every entry of the map is the abbreviation of a record of
    the slice, stored under its own hash; and when the hashes of the records
    are pairwise distinct, each record finds its own abbreviation. *)
Theorem keystones_indexed (n : Z) m l :
  MakeSharedKeystones n = Returned (m, l) ->
  (forall k, k ∈ l ->
     exists k', k' ∈ l /\ keystone_key k' = keystone_key k /\
                m !! keystone_key k = Some (L2KeystoneAbbreviate k')) /\
  (forall key a, m !! key = Some a ->
     AbrevHash a = key /\ exists k, k ∈ l /\ a = L2KeystoneAbbreviate k) /\
  (NoDup (keystone_key <$> l) ->
   forall k, k ∈ l -> m !! keystone_key k = Some (L2KeystoneAbbreviate k)).
Proof.
  intros Hret. apply MakeSharedKeystones_returned in Hret as (_ & -> & ->).
  split; [|split].
  - apply lookup_index_of_elem.
  - intros key a Ha.
    destruct (lookup_index_of_Some _ _ _ Ha) as (k & Hin & <- & ->).
    split; [reflexivity | eauto].
  - intros Hnd k Hin.
    destruct (lookup_index_of_elem _ _ Hin) as (k' & Hin' & Hkey & Hlook).
    rewrite (keystone_key_inj_on _ _ _ Hnd Hin Hin' Hkey) in Hlook. exact Hlook.
Qed.

(** X6. A larger fixture extends a smaller one: for [0 <= n <= m], [m]
    records being within what the runtime allocates, [MakeSharedKeystones]
    returns for both, the slice returned for [n] is the first [n] records of
    the slice returned for [m], and every key of the map returned for [n] is
    a key of the map returned for [m]. *)
Theorem keystones_extend (n m : Z) :
  0 <= n <= m -> sizeof_L2Keystone * m <= maxAlloc ->
  exists mn ln mm lm,
    MakeSharedKeystones n = Returned (mn, ln) /\
    MakeSharedKeystones m = Returned (mm, lm) /\
    ln = take (Z.to_nat n) lm /\
    dom mn ⊆ dom mm.
Proof.
  intros Hnm Hcap. eexists _, _, _, _.
  split; [apply MakeSharedKeystones_spec; unfold sizeof_L2Keystone in *; lia|].
  split; [apply MakeSharedKeystones_spec; [lia | exact Hcap]|].
  replace m with (n + (m - n)) by lia.
  rewrite first_keystones_app by lia. split.
  - rewrite take_app_length'; [reflexivity|].
    pose proof (length_first_keystones n). lia.
  - rewrite !dom_index_of, fmap_app, list_to_set_app_L.
    apply union_subseteq_l.
Qed.

(** X7. The block numbers of the records before any wrap-around: every
    record has [Version] 1; the record at index [i] has [L1BlockNumber]
    [10001 + i] as long as [i < 2^32 - 10001], and [L2BlockNumber]
    [25 * (i + 1)] as long as [i < 171798691]; at index 171798691 the product
    no longer fits a [uint32] and [L2BlockNumber] is 4. *)
Theorem keystones_block_numbers (n : Z) m l (i : nat) (k : L2Keystone) :
  MakeSharedKeystones n = Returned (m, l) ->
  l !! i = Some k ->
  Version k = 1 /\
  (Z.of_nat i < 2 ^ 32 - 10001 -> L1BlockNumber k = 10001 + Z.of_nat i) /\
  (Z.of_nat i < 171798691 -> L2BlockNumber k = 25 * (Z.of_nat i + 1)) /\
  (Z.of_nat i = 171798691 -> L2BlockNumber k = 4).
Proof.
  intros Hret Hlook. apply MakeSharedKeystones_returned in Hret as (_ & _ & ->).
  apply lookup_first_keystones_nat in Hlook as [-> _].
  unfold keystone_at, uint32. cbn [Version L1BlockNumber L2BlockNumber].
  change (2 ^ 32) with 4294967296.
  split; [reflexivity|]. split; [|split].
  - intros Hi. rewrite Z.mod_small; lia.
  - intros Hi. rewrite (Z.mod_small (Z.of_nat i + 1)) by lia.
    rewrite Z.mod_small; lia.
  - intros ->. reflexivity.
Qed.

(** X8. Every record [MakeSharedKeystones] returns has four hashes of 32
    bytes each, and block numbers within [uint32]. *)
Theorem keystones_well_formed (n : Z) m l (k : L2Keystone) :
  MakeSharedKeystones n = Returned (m, l) ->
  k ∈ l ->
  length (ParentEPHash k) = 32%nat /\
  length (PrevKeystoneEPHash k) = 32%nat /\
  length (StateRoot k) = 32%nat /\
  length (EPHash k) = 32%nat /\
  0 <= L1BlockNumber k < 2 ^ 32 /\
  0 <= L2BlockNumber k < 2 ^ 32.
Proof.
  intros Hret Hin. apply MakeSharedKeystones_returned in Hret as (_ & _ & ->).
  apply list_elem_of_lookup in Hin as [i Hi].
  apply lookup_first_keystones_nat in Hi as [-> _].
  unfold keystone_at, SHA256, uint32.
  cbn [ParentEPHash PrevKeystoneEPHash StateRoot EPHash L1BlockNumber L2BlockNumber].
  rewrite !length_vec_to_list.
  repeat split; try apply Z.mod_pos_bound; reflexivity.
Qed.

Lemma uint8_succ_mod (i j : Z) :
  i mod 256 = j mod 256 -> uint8 i = uint8 j /\ uint8 (i + 1) = uint8 (j + 1).
Proof.
  intros Hij. unfold uint8. change (2 ^ 8) with 256. split; [exact Hij|].
  rewrite <- (Z.add_mod_idemp_l i), <- (Z.add_mod_idemp_l j) by lia.
  now rewrite Hij.
Qed.

(** X9. The hashes of the records repeat with period 256, because they are
    computed from the byte [uint8(ci + 1)] alone: two records whose indices
    agree modulo 256 carry the same [ParentEPHash], [PrevKeystoneEPHash],
    [StateRoot] and [EPHash].  A slice of more than 256 records therefore
    holds the same [EPHash] twice. *)
Theorem keystones_hashes_repeat (n : Z) m l :
  MakeSharedKeystones n = Returned (m, l) ->
  (forall (i j : nat) k k',
     l !! i = Some k -> l !! j = Some k' ->
     Z.of_nat i mod 256 = Z.of_nat j mod 256 ->
     ParentEPHash k = ParentEPHash k' /\
     PrevKeystoneEPHash k = PrevKeystoneEPHash k' /\
     StateRoot k = StateRoot k' /\
     EPHash k = EPHash k') /\
  (256 < n -> ~ NoDup (EPHash <$> l)).
Proof.
  intros Hret. apply MakeSharedKeystones_returned in Hret as ([Hn _] & _ & ->).
  assert (Hsame : forall i j, i mod 256 = j mod 256 ->
            ParentEPHash (keystone_at i) = ParentEPHash (keystone_at j) /\
            PrevKeystoneEPHash (keystone_at i) = PrevKeystoneEPHash (keystone_at j) /\
            StateRoot (keystone_at i) = StateRoot (keystone_at j) /\
            EPHash (keystone_at i) = EPHash (keystone_at j)).
  { intros i j Hij. apply uint8_succ_mod in Hij as [H0 H1].
    unfold keystone_at, keystone_byte.
    cbn [ParentEPHash PrevKeystoneEPHash StateRoot EPHash].
    rewrite H0, H1. repeat split. }
  split.
  - intros i j k k' Hi Hj Hij.
    apply lookup_first_keystones_nat in Hi as [-> _], Hj as [-> _].
    now apply Hsame.
  - intros Hlt Hnd.
    assert (Hat : forall i, 0 <= i < n ->
              (EPHash <$> first_keystones n) !! Z.to_nat i = Some (EPHash (keystone_at i)))
      by (intros i Hi; now rewrite list_lookup_fmap, lookup_first_keystones).
    pose proof (Hat 0 ltac:(lia)) as H0. pose proof (Hat 256 ltac:(lia)) as H256.
    destruct (Hsame 256 0 eq_refl) as (_ & _ & _ & Heq). rewrite Heq in H256.
    pose proof (NoDup_lookup _ _ _ _ Hnd H0 H256). lia.
Qed.

End Builder.
End KeystoneFacts.

(** ** Executions of interaction trees *)

Module RunFacts.
Section Run.
Context {E : Type -> Type}.

Lemma observe_bind {R S : Type} (t : itree E R) (k : R -> itree E S) :
  observe (ITree.bind t k)
  = match observe t with
    | RetF r => observe (k r)
    | TauF t' => TauF (ITree.bind t' k)
    | VisF e h => VisF e (fun x => ITree.bind (h x) k)
    end.
Proof.
  unfold ITree.bind, ITree.subst. unfold observe at 1. cbn.
  destruct (observe t); reflexivity.
Qed.

Lemma observe_iter {A B : Type} (f : A -> itree E (A + B)) (a : A) :
  observe (ITree.iter f a)
  = observe (ITree.bind (f a) (fun lr => match lr with
                                         | inl a' => Tau (ITree.iter f a')
                                         | inr b => Ret b
                                         end)).
Proof. reflexivity. Qed.

Lemma Call_inj {T : Type} (e : E T) (x y : T) : Call e x = Call e y -> x = y.
Proof.
  intros Heq. inversion Heq as [Hxy].
  now apply Eqdep.EqdepTheory.inj_pair2 in Hxy.
Qed.

Context {R : Type}.
Implicit Types (t : itree E R) (tr : list (call E)) (o : itree' E R).

(** A run depends on a tree through what the tree is seen to do. *)
Lemma run_observe t1 t2 tr o : observe t1 = observe t2 -> run t1 tr o -> run t2 tr o.
Proof.
  intros Heq Hrun. destruct Hrun as [t | t t' tr o Ht Hrun | t T e k x tr o Ht Hrun].
  - rewrite Heq. constructor.
  - eapply run_tau; [rewrite <- Heq; exact Ht | exact Hrun].
  - eapply run_call; [rewrite <- Heq; exact Ht | exact Hrun].
Qed.

Lemma run_stop_eq t o : observe t = o -> run t [] o.
Proof. intros <-. constructor. Qed.

Lemma run_ret_inv t (r : R) tr o :
  observe t = RetF r -> run t tr o -> tr = [] /\ o = RetF r.
Proof.
  intros Hobs Hrun. destruct Hrun; [split; [reflexivity | exact Hobs] | congruence ..].
Qed.

Lemma run_tau_inv t t' tr o :
  observe t = TauF t' -> run t tr o -> (tr = [] /\ o = TauF t') \/ run t' tr o.
Proof.
  intros Hobs Hrun. destruct Hrun as [t | t t0 tr o Ht Hrun | t T e k x tr o Ht Hrun].
  - left. split; [reflexivity | exact Hobs].
  - right. rewrite Hobs in Ht. injection Ht as <-. exact Hrun.
  - congruence.
Qed.

Lemma run_vis_inv t {T : Type} (e : E T) (k : T -> itree E R) tr o :
  observe t = VisF e k -> run t tr o ->
  (tr = [] /\ o = VisF e k) \/
  (exists x tr', tr = Call e x :: tr' /\ run (k x) tr' o).
Proof.
  intros Hobs Hrun. destruct Hrun as [t | t t0 tr o Ht Hrun | t T' e' k' x tr o Ht Hrun].
  - left. split; [reflexivity | exact Hobs].
  - congruence.
  - right. rewrite Hobs in Ht. inversion Ht as [[HT He Hk]]. subst T'.
    apply Eqdep.EqdepTheory.inj_pair2 in He, Hk. subst e' k'.
    exists x, tr. split; [reflexivity | exact Hrun].
Qed.

End Run.

Section Bind.
Context {E : Type -> Type} {R S : Type}.
Implicit Types (t : itree E R) (k : R -> itree E S).

(** The runs of [t] followed by [k]: cut inside [t], or a complete run of [t]
    followed by a run of [k] on what [t] returned. *)
Lemma run_bind_inv t k tr o :
  run (ITree.bind t k) tr o ->
  (exists o', run t tr o' /\ (forall r, o' <> RetF r) /\
              o = observe (ITree.bind (go o') k)) \/
  (exists tr1 tr2 x, tr = tr1 ++ tr2 /\ returns t tr1 x /\ run (k x) tr2 o).
Proof.
  intros Hrun. remember (ITree.bind t k) as p eqn:Hp. revert t Hp.
  induction Hrun as [p | p p' tr o Hobs Hrun IH | p T e h x tr o Hobs Hrun IH];
    intros t ->.
  - destruct (observe t) as [r | t' | T e h] eqn:Ht.
    + right. exists [], [], r. split; [reflexivity|]. split.
      * unfold returns. rewrite <- Ht. constructor.
      * rewrite observe_bind, Ht. constructor.
    + left. exists (TauF t'). split; [rewrite <- Ht; constructor|].
      split; [discriminate|]. now rewrite observe_bind, Ht.
    + left. exists (VisF e h). split; [rewrite <- Ht; constructor|].
      split; [discriminate|]. now rewrite observe_bind, Ht.
  - rewrite observe_bind in Hobs. destruct (observe t) as [r | t' | T e h] eqn:Ht.
    + right. exists [], tr, r. split; [reflexivity|]. split.
      * unfold returns. rewrite <- Ht. constructor.
      * eapply run_tau; eauto.
    + injection Hobs as <-.
      destruct (IH t' eq_refl) as [(o' & Hr & Hn & Ho) | (tr1 & tr2 & x & Htr & Hr & Hk)].
      * left. exists o'. split; [eapply run_tau; eauto | auto].
      * right. exists tr1, tr2, x. split; [exact Htr|]. split; [|exact Hk].
        eapply run_tau; eauto.
    + discriminate.
  - rewrite observe_bind in Hobs. destruct (observe t) as [r | t' | T' e' h'] eqn:Ht.
    + right. exists [], (Call e x :: tr), r. split; [reflexivity|]. split.
      * unfold returns. rewrite <- Ht. constructor.
      * eapply run_call; eauto.
    + discriminate.
    + inversion Hobs as [[HT He Hh]]. subst T'.
      apply Eqdep.EqdepTheory.inj_pair2 in He, Hh. subst e' h.
      destruct (IH (h' x) eq_refl)
        as [(o' & Hr & Hn & Ho) | (tr1 & tr2 & y & Htr & Hr & Hk)].
      * left. exists o'. split; [eapply run_call; eauto | auto].
      * right. exists (Call e x :: tr1), tr2, y. split; [now rewrite Htr|].
        split; [|exact Hk]. eapply run_call; eauto.
Qed.

(** A complete run of [t] followed by a run of [k] is a run of [t] followed
    by [k]. *)
Lemma run_bind_returns t k tr1 x tr2 o :
  returns t tr1 x -> run (k x) tr2 o -> run (ITree.bind t k) (tr1 ++ tr2) o.
Proof.
  unfold returns. intros Hret Hk. remember (RetF x) as ox eqn:Hox.
  induction Hret as [t | t t' tr o' Hobs Hrun IH | t T e h y tr o' Hobs Hrun IH].
  - eapply run_observe; [|exact Hk]. now rewrite observe_bind, Hox.
  - eapply run_tau; [rewrite observe_bind, Hobs; reflexivity | now apply IH].
  - eapply run_call; [rewrite observe_bind, Hobs; reflexivity | now apply IH].
Qed.

End Bind.
End RunFacts.
Import RunFacts.

(** Inversion of a run of a tree whose first action is computed. *)
Ltac run_vis H := eapply run_vis_inv in H; [ | cbn; reflexivity ].
Ltac run_ret H := eapply run_ret_inv in H; [ | cbn; reflexivity ].
Ltac run_tau H := eapply run_tau_inv in H; [ | cbn; reflexivity ].
Ltac run_bind_ret H :=
  match type of H with
  | run (ITree.subst ?k (Ret ?x)) _ _ =>
      apply (run_observe _ (k x)) in H; [ cbv beta iota in H | reflexivity ]
  end.

(** A run of a sequence whose first part has returned: on to the rest. *)
Ltac run_enter :=
  cbv beta;
  match goal with
  | |- run (ITree.subst ?k (Ret ?x)) _ _ =>
      apply (run_observe (k x)); [ reflexivity | cbv beta iota ]
  end.

(** Construction of a run from its calls. *)
Ltac run_build :=
  repeat first
    [ eapply run_call; [cbn; reflexivity|]
    | apply run_stop_eq; cbn; reflexivity
    | eapply run_tau; [cbn; reflexivity|] ].

(** ** [RandomBytes] *)

Module RandomFacts.
Import Random.
Section WithImports.
Context `{Imports} {rt : Runtime}.

(** The call [rand.Read(b)] on a buffer of [n] bytes, answered. *)
Definition read_call (n : Z) (written : list Z) (err : option error)
  : call (exceptE panic_value +' randE) :=
  Call (inr1 (RandRead (Z.to_nat n))) (written, err).

Definition makeslice_panic : panic_value :=
  RuntimeError "makeslice: len out of range".

(** [RandomBytes] once [make] has returned the buffer. *)
Lemma RandomBytes_allocated (count : Z) :
  0 <= count <= maxAlloc ->
  RandomBytes count
  = (answer <- trigger (RandRead (Z.to_nat count)) ;;
     let '(written, err) := answer in
     match err with
     | Some e => throw (ErrorValue e)
     | None => Ret (copy (zeroed count) written)
     end).
Proof.
  intros Hc. unfold RandomBytes.
  now rewrite make_bytes_fits, length_zeroed by exact Hc.
Qed.

Lemma RandomBytes_refused (count : Z) :
  count < 0 \/ maxAlloc < count -> RandomBytes count = throw makeslice_panic.
Proof.
  intros Hc. unfold RandomBytes. now rewrite make_bytes_panics by exact Hc.
Qed.

(** Every run of [RandomBytes count] for a [count] the runtime allocates: it
    is about to read [count] bytes, or it has read them and returns the
    buffer or panics with the error of the entropy source. *)
Lemma RandomBytes_runs (count : Z) tr o :
  0 <= count <= maxAlloc -> run (RandomBytes count) tr o ->
  (tr = [] /\ exists k, o = VisF (inr1 (RandRead (Z.to_nat count))) k) \/
  (exists written, tr = [read_call count written None] /\
                   o = RetF (copy (zeroed count) written)) \/
  (exists written e k, tr = [read_call count written (Some e)] /\
                       o = VisF (inl1 (Throw (ErrorValue e))) k).
Proof.
  intros Hc Hrun. rewrite RandomBytes_allocated in Hrun by exact Hc.
  run_vis Hrun. destruct Hrun as [[-> ->] | ([written [e|]] & tr' & -> & Hrun)].
  - left. split; [reflexivity|]. eexists. reflexivity.
  - right. right. run_vis Hrun. destruct Hrun as [[-> ->] | ([] & _)].
    exists written, e. eexists. split; reflexivity.
  - right. left. run_ret Hrun. destruct Hrun as [-> ->].
    exists written. split; reflexivity.
Qed.

(** Every run of [RandomBytes count] for a [count] that [make] refuses: the
    panic, before anything is asked of the entropy source. *)
Lemma RandomBytes_refused_runs (count : Z) :
  count < 0 \/ maxAlloc < count ->
  panics (RandomBytes count) [] makeslice_panic /\
  (forall tr o, run (RandomBytes count) tr o ->
     tr = [] /\ exists k, o = VisF (inl1 (Throw makeslice_panic)) k) /\
  (forall tr b, ~ returns (RandomBytes count) tr b).
Proof.
  intros Hc. rewrite RandomBytes_refused by exact Hc.
  assert (Hall : forall tr o,
             run (throw makeslice_panic : itree (exceptE panic_value +' randE) (list Z))
               tr o ->
             tr = [] /\ exists k, o = VisF (inl1 (Throw makeslice_panic)) k).
  { intros tr o Hrun.
    run_vis Hrun. destruct Hrun as [[-> ->] | ([] & _)].
    split; [reflexivity|]. eexists. reflexivity. }
  split; [|split].
  - unfold panics, calls_next. eexists. apply run_stop_eq. cbn. reflexivity.
  - exact Hall.
  - intros tr b Hrun. apply Hall in Hrun as (_ & k & Ho). discriminate.
Qed.

(** C8, amended. For every [count >= 0] up to the largest allocation of the
    runtime: when the entropy source reports no error, [RandomBytes count]
    returns a slice of exactly [count] bytes, and it returns in no other way;
    when the entropy source reports an error, [RandomBytes] panics with that
    error and returns nothing.  Beyond the largest allocation nothing is
    returned and nothing is read: [make] panics. *)
Theorem RandomBytes_length (count : Z) :
  (0 <= count <= maxAlloc ->
   (forall written, exists b,
       returns (RandomBytes count) [read_call count written None] b /\
       Z.of_nat (length b) = count) /\
   (forall tr b, returns (RandomBytes count) tr b ->
       Z.of_nat (length b) = count /\
       exists written, tr = [read_call count written None]) /\
   (forall written e,
       panics (RandomBytes count) [read_call count written (Some e)] (ErrorValue e) /\
       forall b, ~ returns (RandomBytes count) [read_call count written (Some e)] b)) /\
  (maxAlloc < count ->
   panics (RandomBytes count) [] makeslice_panic /\
   (forall tr o, run (RandomBytes count) tr o -> tr = []) /\
   (forall tr b, ~ returns (RandomBytes count) tr b)).
Proof.
  split.
  - intros Hc.
    assert (Hlen : forall written,
               Z.of_nat (length (copy (zeroed count) written)) = count)
      by (intros written; rewrite length_copy, length_zeroed; lia).
    pose proof (RandomBytes_allocated count Hc) as Hstart.
    split; [|split].
    + intros written. exists (copy (zeroed count) written). split; [|apply Hlen].
      unfold returns. rewrite Hstart.
      eapply run_call; [cbn; reflexivity|]. apply run_stop.
    + intros tr b Hrun.
      destruct (RandomBytes_runs count tr _ Hc Hrun)
        as [(_ & k & Ho) | [(written & -> & Ho) | (written & e & k & _ & Ho)]];
        try discriminate.
      injection Ho as ->. split; [apply Hlen | eauto].
    + intros written e. split.
      * unfold panics, calls_next. eexists. rewrite Hstart.
        eapply run_call; [cbn; reflexivity|]. apply run_stop_eq. cbn. reflexivity.
      * intros b Hrun.
        destruct (RandomBytes_runs count _ _ Hc Hrun)
          as [(Htr & _) | [(written' & Htr & _) | (written' & e' & k & _ & Ho)]];
          try discriminate.
        assert (Hcall : read_call count written (Some e) = read_call count written' None)
          by congruence.
        apply Call_inj in Hcall. discriminate.
  - intros Hc.
    destruct (RandomBytes_refused_runs count (or_intror Hc)) as (Hp & Hall & Hno).
    split; [exact Hp|]. split; [|exact Hno].
    intros tr o Hrun. now apply Hall in Hrun.
Qed.

(** C10. For every [count < 0], [RandomBytes count] returns no value: the
    allocation [make([]byte, count)] panics, and it does so before anything
    is asked of the entropy source; no call is ever made. *)
Theorem RandomBytes_negative (count : Z) :
  count < 0 ->
  panics (RandomBytes count) [] makeslice_panic /\
  (forall tr o, run (RandomBytes count) tr o ->
     tr = [] /\ exists k, o = VisF (inl1 (Throw makeslice_panic)) k) /\
  (forall tr b, ~ returns (RandomBytes count) tr b).
Proof. intros Hc. apply RandomBytes_refused_runs. now left. Qed.

(** What [copy] leaves in a fresh buffer. *)
Lemma copy_into_zeroed (n : Z) (src : list Z) :
  copy (zeroed n) src
  = take (Z.to_nat n) src ++ replicate (Z.to_nat n - length src) 0.
Proof.
  unfold copy. rewrite length_zeroed. f_equal.
  unfold zeroed. apply drop_replicate.
Qed.

(** X10. For every [count >= 0] up to the largest allocation of the runtime,
    what [RandomBytes count] returns is what the entropy source wrote: the
    slice holds the bytes written, in order, and zero bytes wherever the
    source wrote nothing; when the source fills the buffer, the slice
    returned is the very bytes it wrote. *)
Theorem RandomBytes_content (count : Z) :
  0 <= count <= maxAlloc ->
  (forall written, Z.of_nat (length written) = count ->
     returns (RandomBytes count) [read_call count written None] written) /\
  (forall tr b, returns (RandomBytes count) tr b ->
     exists written,
       tr = [read_call count written None] /\
       b = take (Z.to_nat count) written
             ++ replicate (Z.to_nat count - length written) 0).
Proof.
  intros Hc. split.
  - intros written Hlen. unfold returns, read_call.
    rewrite RandomBytes_allocated by exact Hc.
    eapply run_call; [cbn; reflexivity|]. apply run_stop_eq. cbn.
    rewrite copy_into_zeroed, take_ge by lia.
    replace (Z.to_nat count - length written)%nat with 0%nat by lia.
    now rewrite app_nil_r.
  - intros tr b Hrun.
    destruct (RandomBytes_runs count tr _ Hc Hrun)
      as [(_ & k & Ho) | [(written & -> & Ho) | (written & e & k & _ & Ho)]];
      try discriminate.
    injection Ho as ->. exists written. split; [reflexivity|].
    apply copy_into_zeroed.
Qed.

End WithImports.
End RandomFacts.

(** ** [FreePort] *)

Module PortFacts.
Import Ports.

(** The number a decimal numeral denotes; nothing when the string is not a
    numeral. *)
Definition decimal_value (s : string) : option Z :=
  Z.of_int <$> DecimalString.NilZero.int_of_string s.

Definition digit (c : ascii) : Prop := 48 <= byte_of_ascii c <= 57.

Lemma decimal_value_Itoa (i : Z) : decimal_value (Itoa i) = Some i.
Proof.
  unfold decimal_value, Itoa. rewrite DecimalString.NilZero.isi.
  - simpl. f_equal. apply DecimalZ.of_to.
  - destruct i as [|p|p]; simpl; [discriminate | | discriminate].
    intros [= Hnil]. now apply DecimalPos.Unsigned.to_uint_nonnil in Hnil.
  - destruct i as [|p|p]; simpl; [discriminate | discriminate |].
    intros [= Hnil]. now apply DecimalPos.Unsigned.to_uint_nonnil in Hnil.
Qed.

Lemma Itoa_inj (i j : Z) : Itoa i = Itoa j -> i = j.
Proof.
  intros Heq. apply (f_equal decimal_value) in Heq.
  rewrite !decimal_value_Itoa in Heq. now injection Heq.
Qed.

Lemma digits_string_of_uint (d : Decimal.uint) :
  Forall digit (list_ascii_of_string (DecimalString.NilEmpty.string_of_uint d)).
Proof.
  induction d; simpl; constructor; try assumption; unfold digit; vm_compute;
    split; discriminate.
Qed.

(** The numeral of a number that is not negative: digits, at least one. *)
Lemma Itoa_digits (i : Z) :
  0 <= i -> Itoa i <> ""%string /\ Forall digit (list_ascii_of_string (Itoa i)).
Proof.
  intros Hi. unfold Itoa. destruct i as [|p|p]; [| |lia].
  - split; [discriminate|]. repeat constructor; vm_compute; discriminate.
  - simpl. pose proof (DecimalPos.Unsigned.to_uint_nonnil p) as Hnil.
    pose proof (digits_string_of_uint (Pos.to_uint p)) as Hdig.
    destruct (Pos.to_uint p); [congruence | split; [discriminate | exact Hdig] ..].
Qed.

Section WithImports.
Context `{Imports}.

(** The call [freeport.GetFreePort()], answered. *)
Definition probe_call (port : Z) (err : option error)
  : call (exceptE panic_value +' portE) :=
  Call (inr1 GetFreePort) (port, err).

(** Every run of [FreePort]: it is about to ask for a port, or it has asked
    and returns the numeral of the port or panics with the error. *)
Lemma FreePort_runs tr o :
  run FreePort tr o ->
  (tr = [] /\ exists k, o = VisF (inr1 GetFreePort) k) \/
  (exists port, tr = [probe_call port None] /\ o = RetF (Itoa port)) \/
  (exists port e k, tr = [probe_call port (Some e)] /\
                    o = VisF (inl1 (Throw (ErrorValue e))) k).
Proof.
  intros Hrun. unfold FreePort in Hrun.
  run_vis Hrun. destruct Hrun as [[-> ->] | ([port [e|]] & tr' & -> & Hrun)].
  - left. split; [reflexivity|]. eexists. reflexivity.
  - right. right. run_vis Hrun. destruct Hrun as [[-> ->] | ([] & _)].
    exists port, e. eexists. split; reflexivity.
  - right. left. run_ret Hrun. destruct Hrun as [-> ->].
    exists port. split; reflexivity.
Qed.

(** X11. When the probe for a free port answers with a port and no error,
    [FreePort] returns the decimal numeral of that port: a string that
    denotes the port, made of digits alone when the port is not negative,
    and different for different ports.  [FreePort] returns in no other way:
    whatever it returns is the numeral of the port one probe answered. *)
Theorem FreePort_returns_port (port : Z) :
  returns FreePort [probe_call port None] (Itoa port) /\
  decimal_value (Itoa port) = Some port /\
  (0 <= port ->
     Itoa port <> ""%string /\ Forall digit (list_ascii_of_string (Itoa port))) /\
  (forall port', Itoa port' = Itoa port -> port' = port) /\
  (forall tr s, returns FreePort tr s ->
     exists port', tr = [probe_call port' None] /\ s = Itoa port').
Proof.
  split; [|split; [|split; [|split]]].
  - unfold returns, FreePort. eapply run_call; [cbn; reflexivity|]. apply run_stop.
  - apply decimal_value_Itoa.
  - apply Itoa_digits.
  - intros port'. apply Itoa_inj.
  - intros tr s Hrun.
    destruct (FreePort_runs _ _ Hrun)
      as [(_ & k & Ho) | [(port' & -> & Ho) | (port' & e & k & _ & Ho)]];
      try discriminate.
    injection Ho as ->. eauto.
Qed.

(** X12. When the probe for a free port answers with an error, [FreePort]
    panics with that error and returns nothing.  The probe is made once:
    no run of [FreePort] holds more than one call, and the only call there
    is asks for a port. *)
Theorem FreePort_panics (port : Z) (e : error) :
  panics FreePort [probe_call port (Some e)] (ErrorValue e) /\
  (forall s, ~ returns FreePort [probe_call port (Some e)] s) /\
  (forall tr o, run FreePort tr o ->
     tr = [] \/ exists port' err, tr = [probe_call port' err]).
Proof.
  split; [|split].
  - unfold panics, calls_next, FreePort. eexists.
    eapply run_call; [cbn; reflexivity|]. apply run_stop_eq. cbn. reflexivity.
  - intros s Hrun.
    destruct (FreePort_runs _ _ Hrun)
      as [(Htr & _) | [(port' & Htr & _) | (port' & e' & k & _ & Ho)]];
      try discriminate.
    assert (Hcall : probe_call port (Some e) = probe_call port' None) by congruence.
    apply Call_inj in Hcall. discriminate.
  - intros tr o Hrun.
    destruct (FreePort_runs _ _ Hrun)
      as [(-> & _) | [(port' & -> & _) | (port' & e' & k & -> & _)]]; eauto.
Qed.

End WithImports.
End PortFacts.

(** ** [ExecuteTX] *)

Module HarnessFacts.
Import Harness.
Section WithImports.
Context `{Imports}.

(** *** What a run says to the script engine *)

(** The calls on the engine, without the lines sent to the test log. *)
Definition vm_call (c : call harnessE) : option (call vmE) :=
  match c with
  | Call e x =>
      match e with
      | inl1 v => Some (Call v x)
      | inr1 _ => None
      end
  end.

Definition vm_calls (tr : list (call harnessE)) : list (call vmE) :=
  omap vm_call tr.

(** The [error] an answer of the engine carries; [None] is Go's [nil]. *)
Definition call_error (c : call vmE) : option error :=
  match c with
  | Call e x =>
      match e in vmE T return T -> option error with
      | NewEngine _ _ _ _ _ => snd
      | DisasmPC _ => snd
      | Step _ => snd
      | GetStack _ => fun _ => None
      | CheckErrorCondition _ _ => fun err => err
      end x
  end.

Variant call_kind : Type :=
| KNewEngine | KDisasmPC | KStep | KGetStack | KCheckErrorCondition.

Definition event_kind {T : Type} (e : vmE T) : call_kind :=
  match e with
  | NewEngine _ _ _ _ _ => KNewEngine
  | DisasmPC _ => KDisasmPC
  | Step _ => KStep
  | GetStack _ => KGetStack
  | CheckErrorCondition _ _ => KCheckErrorCondition
  end.

Definition kind_of (c : call vmE) : call_kind :=
  match c with Call e _ => event_kind e end.

(** What a call of [Step] was answered: [(done, err)]. *)
Definition step_result (c : call vmE) : option (bool * option error) :=
  match c with
  | Call e x =>
      match e in vmE T return T -> option (bool * option error) with
      | Step _ => fun x => Some x
      | _ => fun _ => None
      end x
  end.

Definition cNew (scriptPubKey : list Z) (tx : Tx) (vm : Engine) (err : option error)
  : call vmE :=
  Call (NewEngine scriptPubKey (tx_MsgTx tx) 0 flags (-1)) (vm, err).
Definition cDisasm (vm : Engine) (d : string) (err : option error) : call vmE :=
  Call (DisasmPC vm) (d, err).
Definition cStep (vm : Engine) (done : bool) (err : option error) : call vmE :=
  Call (Step vm) (done, err).
Definition cStack (vm : Engine) (stack : list (list Z)) : call vmE :=
  Call (GetStack vm) stack.
Definition cCheck (vm : Engine) (err : option error) : call vmE :=
  Call (CheckErrorCondition vm true) err.

(** What a run is seen as when it is cut: a line waits to be logged, an
    internal step is due (on the way back to the head of the loop), or the
    call [e] on the engine is due. *)
Definition pending_log {R : Type} (o : itree' harnessE R) : Prop :=
  exists line k, o = VisF (inr1 (Logf line)) k.
Definition due {R T : Type} (e : vmE T) (o : itree' harnessE R) : Prop :=
  exists k, o = VisF (inl1 e) k.
Definition silent {R : Type} (o : itree' harnessE R) : Prop :=
  exists t, o = TauF t.
Definition heading_for {R T : Type} (e : vmE T) (o : itree' harnessE R) : Prop :=
  due e o \/ pending_log o \/ (silent o /\ event_kind e = KDisasmPC).

(** *** The order of the calls

    Following the words of the specification: the engine is constructed;
    then, again and again, the program counter is disassembled, one step is
    executed and the stack is read, until a step reports completion; then the
    final error condition is checked.  An error of the engine ends the call. *)

(** Where the calls of the loop, counted from the loop head, have led. *)
Variant loop_status : Type :=
| LNext {T : Type} (e : vmE T)
| LReturn (e : error)
| LBreak.

Inductive loop_calls (vm : Engine) : list (call vmE) -> loop_status -> Prop :=
| loop_head :
    loop_calls vm [] (LNext (DisasmPC vm))
| loop_disasm_failed d e :
    loop_calls vm [cDisasm vm d (Some e)] (LReturn e)
| loop_disassembled d :
    loop_calls vm [cDisasm vm d None] (LNext (Step vm))
| loop_step_failed d done e :
    loop_calls vm [cDisasm vm d None; cStep vm done (Some e)] (LReturn e)
| loop_stepped d done :
    loop_calls vm [cDisasm vm d None; cStep vm done None] (LNext (GetStack vm))
| loop_done d stack :
    loop_calls vm [cDisasm vm d None; cStep vm true None; cStack vm stack] LBreak
| loop_again d stack calls s :
    loop_calls vm calls s ->
    loop_calls vm (cDisasm vm d None :: cStep vm false None :: cStack vm stack :: calls) s.

Variant status : Type :=
| Next {T : Type} (e : vmE T)
| Finished (r : option error).

Inductive harness_calls (scriptPubKey : list Z) (tx : Tx)
  : list (call vmE) -> status -> Prop :=
| harness_start :
    harness_calls scriptPubKey tx []
      (Next (NewEngine scriptPubKey (tx_MsgTx tx) 0 flags (-1)))
| harness_no_engine vm e :
    harness_calls scriptPubKey tx [cNew scriptPubKey tx vm (Some e)] (Finished (Some e))
| harness_stepping vm calls T (e : vmE T) :
    loop_calls vm calls (LNext e) ->
    harness_calls scriptPubKey tx (cNew scriptPubKey tx vm None :: calls) (Next e)
| harness_returned vm calls e :
    loop_calls vm calls (LReturn e) ->
    harness_calls scriptPubKey tx (cNew scriptPubKey tx vm None :: calls) (Finished (Some e))
| harness_exited vm calls :
    loop_calls vm calls LBreak ->
    harness_calls scriptPubKey tx (cNew scriptPubKey tx vm None :: calls)
      (Next (CheckErrorCondition vm true))
| harness_checked vm calls r :
    loop_calls vm calls LBreak ->
    harness_calls scriptPubKey tx (cNew scriptPubKey tx vm None :: calls ++ [cCheck vm r])
      (Finished r).

(** How the place reached shows in what the run is seen as. *)
Definition loop_agrees (s : loop_status) (o : itree' harnessE loop_exit) : Prop :=
  match s with
  | LNext e => heading_for e o
  | LReturn e => o = RetF (LoopReturn e)
  | LBreak => o = RetF LoopBreak \/ pending_log o
  end.

Definition agrees (s : status) (o : itree' harnessE (option error)) : Prop :=
  match s with
  | Next e => heading_for e o
  | Finished (Some e) => o = RetF (Some e)
  | Finished None => o = RetF None \/ pending_log o
  end.

(** *** Runs of the pieces *)

Lemma vm_calls_app (tr1 tr2 : list (call harnessE)) :
  vm_calls (tr1 ++ tr2) = vm_calls tr1 ++ vm_calls tr2.
Proof. apply omap_app. Qed.

(** A line for the log: it waits to be taken, or it is out of the way and
    adds nothing to the calls on the engine. *)
Lemma run_logf {R : Type} (dump : bool) (line : log_line)
    (k : unit -> itree harnessE R) tr o :
  run (ITree.bind (logf dump line) k) tr o ->
  (tr = [] /\ pending_log o) \/
  (exists tr', vm_calls tr = vm_calls tr' /\ (length tr' <= length tr)%nat /\
               run (k tt) tr' o).
Proof.
  intros Hrun. destruct dump; unfold logf in Hrun.
  - run_vis Hrun. destruct Hrun as [[-> ->] | ([] & tr' & -> & Hrun)].
    + left. split; [reflexivity|]. eexists _, _. reflexivity.
    + right. exists tr'. split; [reflexivity|]. split; [simpl; lia|].
      eapply run_observe; [|exact Hrun]. reflexivity.
  - right. exists tr. split; [reflexivity|]. split; [lia|].
    eapply run_observe; [|exact Hrun]. reflexivity.
Qed.

Lemma vm_calls_vm {T : Type} (e : vmE T) (x : T) (tr : list (call harnessE)) :
  vm_calls (Call (subevent T e) x :: tr) = Call e x :: vm_calls tr.
Proof. reflexivity. Qed.

Lemma body_runs (dump : bool) (vm : Engine) (i : Z) tr o :
  run (loop_body dump vm i) tr o ->
  (exists s, loop_calls vm (vm_calls tr) s /\
     match s with
     | LNext e => due e o \/ pending_log o
     | LReturn e => o = RetF (inr (LoopReturn e))
     | LBreak => o = RetF (inr LoopBreak) \/ pending_log o
     end) \/
  (exists d stack,
     vm_calls tr = [cDisasm vm d None; cStep vm false None; cStack vm stack] /\
     (o = RetF (inl (int_wrap (i + 1))) \/ pending_log o)).
Proof.
  intros Hrun. unfold loop_body in Hrun.
  (* d, err := vm.DisasmPC() *)
  run_vis Hrun. destruct Hrun as [[-> ->] | ([d [e|]] & tr' & -> & Hrun)].
  { left. exists (LNext (DisasmPC vm)). split; [constructor|]. left. eexists. reflexivity. }
  { run_ret Hrun. destruct Hrun as [-> ->].
    left. exists (LReturn e). split; [constructor | reflexivity]. }
  rewrite vm_calls_vm. run_bind_ret Hrun.
  apply run_logf in Hrun as [[-> Hlog] | (tr2 & -> & _ & Hrun)].
  { left. exists (LNext (Step vm)). split; [constructor | now right]. }
  clear tr'.
  (* done, err := vm.Step() *)
  run_vis Hrun. destruct Hrun as [[-> ->] | ([done [e|]] & tr' & -> & Hrun)].
  { left. exists (LNext (Step vm)). split; [constructor|]. left. eexists. reflexivity. }
  { run_ret Hrun. destruct Hrun as [-> ->].
    left. exists (LReturn e). split; [constructor | reflexivity]. }
  rewrite vm_calls_vm. run_bind_ret Hrun.
  (* stack := vm.GetStack() *)
  run_vis Hrun. destruct Hrun as [[-> ->] | (stack & tr2 & -> & Hrun)].
  { left. exists (LNext (GetStack vm)). split; [constructor|]. left. eexists. reflexivity. }
  rewrite vm_calls_vm. run_bind_ret Hrun.
  apply run_logf in Hrun as [[-> Hlog] | (tr3 & -> & _ & Hrun)].
  { destruct done.
    - left. exists LBreak. split; [constructor | now right].
    - right. exists d, stack. split; [reflexivity | now right]. }
  destruct done; run_ret Hrun; destruct Hrun as [-> ->].
  - left. exists LBreak. split; [constructor | now left].
  - right. exists d, stack. split; [reflexivity | now left].
Qed.

(** What is due inside the first part of a sequence is due in the sequence. *)
Lemma due_bind {R S T : Type} (e : vmE T) (o : itree' harnessE R)
    (k : R -> itree harnessE S) :
  due e o -> due e (observe (ITree.bind (go o) k)).
Proof. intros [h ->]. eexists. rewrite observe_bind. reflexivity. Qed.

Lemma pending_log_bind {R S : Type} (o : itree' harnessE R)
    (k : R -> itree harnessE S) :
  pending_log o -> pending_log (observe (ITree.bind (go o) k)).
Proof. intros (line & h & ->). eexists _, _. rewrite observe_bind. reflexivity. Qed.

Lemma silent_bind {R S : Type} (o : itree' harnessE R)
    (k : R -> itree harnessE S) :
  silent o -> silent (observe (ITree.bind (go o) k)).
Proof. intros (t & ->). eexists. rewrite observe_bind. reflexivity. Qed.

Lemma not_ret_due {R T : Type} (e : vmE T) (r : R) : ~ due e (RetF r : itree' harnessE R).
Proof. intros [k Hk]. discriminate. Qed.

Lemma not_ret_pending_log {R : Type} (r : R) : ~ pending_log (RetF r : itree' harnessE R).
Proof. intros (line & k & Hk). discriminate. Qed.

(** The stepping loop from its head, at any value of the counter. *)
Lemma loop_runs (dump : bool) (vm : Engine) tr :
  forall i o,
    run (ITree.iter (loop_body dump vm) i) tr o ->
    exists s, loop_calls vm (vm_calls tr) s /\ loop_agrees s o.
Proof.
  remember (length tr) as n eqn:Hn. revert tr Hn.
  induction n as [n IH] using lt_wf_ind. intros tr Hn i o Hrun.
  apply (run_observe _ _ _ _ (observe_iter _ _)) in Hrun.
  apply run_bind_inv in Hrun
    as [(o' & Hrun & Hnr & ->) | (tr1 & tr2 & lr & -> & Hret & Hrun)].
  - (* cut inside the iteration *)
    apply body_runs in Hrun as [([T e | e |] & Hcalls & Hag) | (d & stack & Hcalls & Hag)].
    + exists (LNext e). split; [exact Hcalls|].
      destruct Hag as [Hdue | Hlog];
        [left; now apply due_bind | right; left; now apply pending_log_bind].
    + now destruct (Hnr _ Hag).
    + destruct Hag as [Hret | Hlog]; [now destruct (Hnr _ Hret)|].
      exists LBreak. split; [exact Hcalls|]. right. now apply pending_log_bind.
    + destruct Hag as [Hret | Hlog]; [now destruct (Hnr _ Hret)|].
      exists (LNext (DisasmPC vm)). rewrite Hcalls.
      split; [apply loop_again, loop_head|]. right; left. now apply pending_log_bind.
  - (* the iteration is complete *)
    unfold returns in Hret. rewrite vm_calls_app.
    apply body_runs in Hret as [([T e | e |] & Hcalls & Hag) | (d & stack & Hcalls & Hag)].
    + destruct Hag as [Hdue | Hlog];
        [now apply not_ret_due in Hdue | now apply not_ret_pending_log in Hlog].
    + injection Hag as ->. cbv beta iota in Hrun.
      run_ret Hrun. destruct Hrun as [-> ->]. rewrite app_nil_r.
      exists (LReturn e). split; [exact Hcalls | reflexivity].
    + destruct Hag as [Hret | Hlog]; [|now apply not_ret_pending_log in Hlog].
      injection Hret as ->. cbv beta iota in Hrun.
      run_ret Hrun. destruct Hrun as [-> ->]. rewrite app_nil_r.
      exists LBreak. split; [exact Hcalls | now left].
    + destruct Hag as [Hret | Hlog]; [|now apply not_ret_pending_log in Hlog].
      injection Hret as ->. cbv beta iota in Hrun. rewrite Hcalls.
      run_tau Hrun. destruct Hrun as [[-> ->] | Hrun].
      * exists (LNext (DisasmPC vm)). split; [apply loop_again, loop_head|].
        right; right. split; [eexists|]; reflexivity.
      * assert (Hlt : (length tr2 < n)%nat).
        { subst n. rewrite length_app. destruct tr1; [discriminate | simpl; lia]. }
        destruct (IH _ Hlt tr2 eq_refl _ _ Hrun) as (s & Hs & Hag).
        exists s. split; [now apply loop_again | exact Hag].
Qed.

Lemma not_ret_silent {R : Type} (r : R) : ~ silent (RetF r : itree' harnessE R).
Proof. intros (t & Ht). discriminate. Qed.

(** The code behind the loop: [vm.CheckErrorCondition(true)] and the return. *)
Lemma after_loop_runs (dump : bool) (vm : Engine) (tx : Tx) tr o :
  run (after_loop dump vm tx) tr o ->
  (vm_calls tr = [] /\ due (CheckErrorCondition vm true) o) \/
  (exists r, vm_calls tr = [cCheck vm r] /\ agrees (Finished r) o).
Proof.
  intros Hrun. unfold after_loop in Hrun.
  run_vis Hrun. destruct Hrun as [[-> ->] | ([e|] & tr' & -> & Hrun)].
  - left. split; [reflexivity|]. eexists. reflexivity.
  - run_ret Hrun. destruct Hrun as [-> ->].
    right. exists (Some e). split; reflexivity.
  - rewrite vm_calls_vm. run_bind_ret Hrun.
    apply run_logf in Hrun as [[-> Hlog] | (tr2 & -> & _ & Hrun)].
    + right. exists None. split; [reflexivity | now right].
    + run_ret Hrun. destruct Hrun as [-> ->].
      right. exists None. split; [reflexivity | now left].
Qed.

(** Every run of [ExecuteTX] keeps the order of the calls, and is seen as
    the place it has reached. *)
Lemma harness_runs (dump : bool) (scriptPubKey : list Z) (tx : Tx) tr o :
  run (ExecuteTX dump scriptPubKey tx) tr o ->
  exists s, harness_calls scriptPubKey tx (vm_calls tr) s /\ agrees s o.
Proof.
  intros Hrun. unfold ExecuteTX in Hrun.
  (* vm, err := txscript.NewEngine(...) *)
  run_vis Hrun. destruct Hrun as [[-> ->] | ([vm [e|]] & tr' & -> & Hrun)].
  { eexists. split; [apply harness_start|]. left. eexists. reflexivity. }
  { run_ret Hrun. destruct Hrun as [-> ->].
    exists (Finished (Some e)). split; [apply harness_no_engine | reflexivity]. }
  rewrite vm_calls_vm. fold (cNew scriptPubKey tx vm None). run_bind_ret Hrun.
  apply run_logf in Hrun as [[-> Hlog] | (tr2 & -> & _ & Hrun)].
  { exists (Next (DisasmPC vm)). split; [apply harness_stepping, loop_head|].
    right; left. exact Hlog. }
  clear tr'.
  apply run_bind_inv in Hrun
    as [(o' & Hrun & Hnr & ->) | (tr1 & tr3 & ex & -> & Hret & Hrun)].
  - (* cut inside the loop *)
    apply loop_runs in Hrun as ([T e | e |] & Hcalls & Hag); cbn in Hag.
    + exists (Next e). split; [now apply harness_stepping|].
      destruct Hag as [Hdue | [Hlog | [Htau Hkind]]];
        [ left; now apply due_bind
        | right; left; now apply pending_log_bind
        | right; right; split; [now apply silent_bind | exact Hkind] ].
    + now destruct (Hnr _ Hag).
    + destruct Hag as [Hret | Hlog]; [now destruct (Hnr _ Hret)|].
      exists (Next (CheckErrorCondition vm true)).
      split; [now apply harness_exited|]. right; left. now apply pending_log_bind.
  - (* the loop is left *)
    unfold returns in Hret. rewrite vm_calls_app.
    apply loop_runs in Hret as ([T e | e |] & Hcalls & Hag); cbn in Hag.
    + destruct Hag as [Hdue | [Hlog | [Htau _]]];
        [ now apply not_ret_due in Hdue
        | now apply not_ret_pending_log in Hlog
        | now apply not_ret_silent in Htau ].
    + injection Hag as ->. cbv beta iota in Hrun.
      run_ret Hrun. destruct Hrun as [-> ->]. rewrite app_nil_r.
      exists (Finished (Some e)). split; [now apply harness_returned | reflexivity].
    + destruct Hag as [Hex | Hlog]; [|now apply not_ret_pending_log in Hlog].
      injection Hex as ->. cbv beta iota in Hrun.
      apply after_loop_runs in Hrun as [[-> Hdue] | (r & -> & Hag)].
      * rewrite app_nil_r. exists (Next (CheckErrorCondition vm true)).
        split; [now apply harness_exited | now left].
      * exists (Finished r). split; [now apply harness_checked | exact Hag].
Qed.

(** *** Consequences of the order of the calls *)

(** The call at a position of a list given element by element. *)
Ltac at_position H :=
  repeat match type of H with
         | Some _ = Some _ => injection H as <-
         | None = Some _ => discriminate H
         | [] !! _ = Some _ => rewrite lookup_nil in H
         | (?x :: _) !! 0%nat = Some ?c => change (Some x = Some c) in H
         | (_ :: ?l) !! (S ?i) = Some ?c => change (l !! i = Some c) in H
         | (_ :: _) !! ?p = Some _ => is_var p; destruct p as [|p]
         end.

Lemma step_result_kind (c : call vmE) r : step_result c = Some r -> kind_of c = KStep.
Proof. destruct c as [T [] x]; cbn; congruence. Qed.

Lemma loop_calls_kinds vm calls s p c :
  loop_calls vm calls s -> calls !! p = Some c ->
  kind_of c = KDisasmPC \/ kind_of c = KStep \/ kind_of c = KGetStack.
Proof.
  intros Hloop. revert p.
  induction Hloop; intros p Hp; at_position Hp; cbn; eauto.
Qed.

Lemma loop_calls_head vm calls s c :
  loop_calls vm calls s -> calls !! 0%nat = Some c -> kind_of c = KDisasmPC.
Proof. intros Hloop Hp. destruct Hloop; at_position Hp; reflexivity. Qed.

(** An error is the last thing the loop hears, and the loop returns it. *)
Lemma loop_calls_error vm calls s p c e :
  loop_calls vm calls s -> calls !! p = Some c -> call_error c = Some e ->
  length calls = S p /\ s = LReturn e.
Proof.
  intros Hloop. revert p.
  induction Hloop; intros p Hp Herr; at_position Hp; cbn in Herr; try discriminate.
  - injection Herr as ->. split; reflexivity.
  - injection Herr as ->. split; reflexivity.
  - destruct (IHHloop _ Hp Herr) as [Hlen ->]. split; [simpl; lia | reflexivity].
Qed.

Lemma loop_calls_return vm calls e :
  loop_calls vm calls (LReturn e) ->
  exists c, last calls = Some c /\ call_error c = Some e.
Proof.
  intros Hloop. remember (LReturn e) as s eqn:Hs.
  induction Hloop; try discriminate.
  - injection Hs as ->. eexists. split; reflexivity.
  - injection Hs as ->. eexists. split; reflexivity.
  - destruct (IHHloop Hs) as (c & Hlast & Herr). exists c. split; [|exact Herr].
    destruct calls as [|c0 calls]; [discriminate | exact Hlast].
Qed.

(** After a step without error the stack is read; what follows inside the
    loop is the next disassembly, and only when the step was not the last. *)
Lemma loop_calls_step vm calls s p c done :
  loop_calls vm calls s -> calls !! p = Some c -> step_result c = Some (done, None) ->
  (forall c1, calls !! (p + 1)%nat = Some c1 -> kind_of c1 = KGetStack) /\
  (forall c2, calls !! (p + 2)%nat = Some c2 -> done = false /\ kind_of c2 = KDisasmPC).
Proof.
  intros Hloop. revert p.
  induction Hloop; intros p Hp Hstep; at_position Hp; cbn in Hstep; try discriminate.
  - split; intros c' Hc'; cbn in Hc'; discriminate.
  - split; intros c' Hc'; cbn in Hc'; [injection Hc' as <-; reflexivity | discriminate].
  - injection Hstep as <-. split; intros c' Hc'; cbn in Hc'.
    + injection Hc' as <-. reflexivity.
    + split; [reflexivity|]. eapply loop_calls_head; eauto.
  - replace (S (S (S p)) + 1)%nat with (S (S (S (p + 1)))) by lia.
    replace (S (S (S p)) + 2)%nat with (S (S (S (p + 2)))) by lia.
    cbn [lookup list_lookup]. now apply IHHloop.
Qed.

(** The loop is left by [break] right after a completed step and the
    reading of the stack. *)
Lemma loop_calls_break vm calls :
  loop_calls vm calls LBreak ->
  exists n c2 c1,
    length calls = S (S n) /\
    calls !! n = Some c2 /\ step_result c2 = Some (true, None) /\
    calls !! S n = Some c1 /\ kind_of c1 = KGetStack.
Proof.
  intros Hloop. remember LBreak as s eqn:Hs.
  induction Hloop; try discriminate.
  - exists 1%nat. eexists _, _. repeat split.
  - destruct (IHHloop Hs) as (n & c2 & c1 & Hlen & H2 & Hr & H1 & Hk).
    exists (S (S (S n))), c2, c1. cbn [length].
    repeat split; auto; lia.
Qed.

(** A completed step in the last place but one means the loop is left. *)
Lemma loop_calls_done vm calls s p c :
  loop_calls vm calls s -> calls !! p = Some c -> step_result c = Some (true, None) ->
  length calls = (p + 2)%nat -> s = LBreak.
Proof.
  intros Hloop. revert p.
  induction Hloop; intros p Hp Hstep Hlen; at_position Hp; cbn in Hstep, Hlen;
    try discriminate; try lia; try reflexivity.
  eapply IHHloop; eauto. lia.
Qed.

Section Order.
Variables (scriptPubKey : list Z) (tx : Tx).
Abbreviation harness_calls := (harness_calls scriptPubKey tx).

(** An error is the last thing the harness hears, and it is what the harness
    returns. *)
Lemma harness_calls_error calls s p c e :
  harness_calls calls s -> calls !! p = Some c -> call_error c = Some e ->
  length calls = S p /\ s = Finished (Some e).
Proof.
  intros Hcalls Hp Herr.
  destruct Hcalls as [|vm e0|vm lcalls T e0 Hloop|vm lcalls e0 Hloop
                      |vm lcalls Hloop|vm lcalls r Hloop];
    at_position Hp; try discriminate.
  - injection Herr as ->. split; reflexivity.
  - destruct (loop_calls_error _ _ _ _ _ _ Hloop Hp Herr) as [_ Hs]. discriminate.
  - destruct (loop_calls_error _ _ _ _ _ _ Hloop Hp Herr) as [Hlen Hs].
    injection Hs as ->. split; [simpl; lia | reflexivity].
  - destruct (loop_calls_error _ _ _ _ _ _ Hloop Hp Herr) as [_ Hs]. discriminate.
  - apply lookup_snoc_Some in Hp as [[_ Hp] | [-> <-]].
    + destruct (loop_calls_error _ _ _ _ _ _ Hloop Hp Herr) as [_ Hs]. discriminate.
    + cbn in Herr. subst r. split; [|reflexivity].
      cbn [length]. rewrite length_app. simpl. lia.
Qed.

Lemma harness_calls_finished_error calls e :
  harness_calls calls (Finished (Some e)) ->
  exists c, last calls = Some c /\ call_error c = Some e.
Proof.
  intros Hcalls. remember (Finished (Some e)) as s eqn:Hs.
  destruct Hcalls as [|vm e0|vm lcalls T e0 Hloop|vm lcalls e0 Hloop
                      |vm lcalls Hloop|vm lcalls r Hloop]; try discriminate.
  - injection Hs as ->. eexists. split; reflexivity.
  - injection Hs as ->.
    destruct (loop_calls_return _ _ _ Hloop) as (c & Hlast & Herr).
    exists c. split; [|exact Herr].
    destruct lcalls; [discriminate | exact Hlast].
  - injection Hs as ->. exists (cCheck vm (Some e)). split; [|reflexivity].
    rewrite app_comm_cons. apply last_snoc.
Qed.

Lemma harness_calls_finished_nil calls :
  harness_calls calls (Finished None) ->
  (forall p c, calls !! p = Some c -> call_error c = None) /\
  exists c0 c1, calls !! 0%nat = Some c0 /\ kind_of c0 = KNewEngine /\
                last calls = Some c1 /\ kind_of c1 = KCheckErrorCondition.
Proof.
  intros Hcalls. split.
  - intros p c Hp. destruct (call_error c) as [e|] eqn:Herr; [|reflexivity].
    destruct (harness_calls_error _ _ _ _ _ Hcalls Hp Herr) as [_ Hs]. discriminate.
  - remember (Finished None) as s eqn:Hs.
    destruct Hcalls as [|vm e0|vm lcalls T e0 Hloop|vm lcalls e0 Hloop
                        |vm lcalls Hloop|vm lcalls r Hloop]; try discriminate.
    injection Hs as ->. eexists _, (cCheck vm None).
    split; [reflexivity|]. split; [reflexivity|]. split; [|reflexivity].
    rewrite app_comm_cons. apply last_snoc.
Qed.

(** The final check comes once, last, straight after a completed step and
    the reading of the stack. *)
Lemma harness_calls_check calls s p c :
  harness_calls calls s -> calls !! p = Some c -> kind_of c = KCheckErrorCondition ->
  length calls = S p /\
  exists n c2 c1,
    p = S (S n) /\
    calls !! n = Some c2 /\ step_result c2 = Some (true, None) /\
    calls !! S n = Some c1 /\ kind_of c1 = KGetStack.
Proof.
  intros Hcalls Hp Hkind.
  assert (Hloop_kind : forall vm lcalls ls q,
             loop_calls vm lcalls ls -> lcalls !! q = Some c -> False).
  { intros vm lcalls ls q Hloop Hq.
    destruct (loop_calls_kinds _ _ _ _ _ Hloop Hq) as [Hk | [Hk | Hk]]; congruence. }
  destruct Hcalls as [|vm e0|vm lcalls T e0 Hloop|vm lcalls e0 Hloop
                      |vm lcalls Hloop|vm lcalls r Hloop];
    at_position Hp; try discriminate;
    try (now destruct (Hloop_kind _ _ _ _ Hloop Hp)).
  apply lookup_snoc_Some in Hp as [[_ Hp] | [-> <-]];
    [now destruct (Hloop_kind _ _ _ _ Hloop Hp)|].
  split; [cbn [length]; rewrite length_app; simpl; lia|].
  destruct (loop_calls_break _ _ Hloop) as (n & c2 & c1 & Hlen & H2 & Hr & H1 & Hk).
  exists (S n), c2, c1. split; [lia|].
  change ((cNew scriptPubKey tx vm None :: lcalls ++ [cCheck vm r]) !! S n)
    with ((lcalls ++ [cCheck vm r]) !! n).
  change ((cNew scriptPubKey tx vm None :: lcalls ++ [cCheck vm r]) !! S (S n))
    with ((lcalls ++ [cCheck vm r]) !! S n).
  rewrite !lookup_app_l by lia. auto.
Qed.

(** After a step without error the stack is read; then the loop goes on with
    the next disassembly when the step was not the last, and gives way to the
    final check when it was. *)
Lemma harness_calls_step calls s p c done :
  harness_calls calls s -> calls !! p = Some c -> step_result c = Some (done, None) ->
  (forall c1, calls !! (p + 1)%nat = Some c1 -> kind_of c1 = KGetStack) /\
  (forall c2, calls !! (p + 2)%nat = Some c2 ->
     kind_of c2 = if done then KCheckErrorCondition else KDisasmPC).
Proof.
  intros Hcalls Hp Hstep.
  assert (Hin_loop : forall vm lcalls ls q,
             loop_calls vm lcalls ls -> lcalls !! q = Some c ->
             (forall c1, lcalls !! (q + 1)%nat = Some c1 -> kind_of c1 = KGetStack) /\
             (forall c2, lcalls !! (q + 2)%nat = Some c2 ->
                kind_of c2 = if done then KCheckErrorCondition else KDisasmPC)).
  { intros vm lcalls ls q Hloop Hq.
    destruct (loop_calls_step _ _ _ _ _ _ Hloop Hq Hstep) as [H1 H2].
    split; [exact H1|]. intros c2 Hc2. destruct (H2 _ Hc2) as [-> Hk]. exact Hk. }
  destruct Hcalls as [|vm e0|vm lcalls T e0 Hloop|vm lcalls e0 Hloop
                      |vm lcalls Hloop|vm lcalls r Hloop];
    at_position Hp; try discriminate;
    try (now apply (Hin_loop _ _ _ _ Hloop Hp)).
  apply lookup_snoc_Some in Hp as [[Hlt Hp] | [-> <-]]; [|discriminate].
  destruct (loop_calls_step _ _ _ _ _ _ Hloop Hp Hstep) as [H1 H2].
  destruct (loop_calls_break _ _ Hloop) as (n & b2 & b1 & Hlen & Hb2 & Hr & Hb1 & Hk).
  pose proof (step_result_kind _ _ Hstep) as Hkc.
  split.
  - intros c1 Hc1. change (S p + 1)%nat with (S (p + 1)) in Hc1.
    change ((lcalls ++ [cCheck vm r]) !! (p + 1)%nat = Some c1) in Hc1.
    apply lookup_snoc_Some in Hc1 as [[_ Hc1] | [Hpos _]]; [now apply H1|].
    exfalso. assert (p = S n) by lia. subst p. congruence.
  - intros c2 Hc2. change (S p + 2)%nat with (S (p + 2)) in Hc2.
    change ((lcalls ++ [cCheck vm r]) !! (p + 2)%nat = Some c2) in Hc2.
    apply lookup_snoc_Some in Hc2 as [[_ Hc2] | [Hpos <-]].
    + destruct (H2 _ Hc2) as [-> Hk2]. exact Hk2.
    + assert (p = n) by lia. subst p.
      assert (Hdone : Some (done, @None error) = Some (true, None)) by congruence.
      injection Hdone as ->. reflexivity.
Qed.

(** A completed step followed by the reading of the stack and nothing else:
    the final check is what comes next. *)
Lemma harness_calls_done calls s p c :
  harness_calls calls s -> calls !! p = Some c -> step_result c = Some (true, None) ->
  length calls = (p + 2)%nat ->
  exists vm, s = Next (CheckErrorCondition vm true).
Proof.
  intros Hcalls Hp Hstep Hlen.
  destruct Hcalls as [|vm e0|vm lcalls T e0 Hloop|vm lcalls e0 Hloop
                      |vm lcalls Hloop|vm lcalls r Hloop];
    at_position Hp; try discriminate; cbn [length] in Hlen;
    try (assert (Hs : LBreak = _)
           by (symmetry; eapply (loop_calls_done _ _ _ _ _ Hloop Hp Hstep); lia);
         discriminate).
  - exists vm. reflexivity.
  - exfalso. rewrite length_app in Hlen. simpl in Hlen.
    apply lookup_snoc_Some in Hp as [[_ Hp] | [-> <-]]; [|lia].
    destruct (loop_calls_break _ _ Hloop) as (n & b2 & b1 & Hl & Hb2 & Hr & Hb1 & Hk).
    pose proof (step_result_kind _ _ Hstep) as Hkc.
    assert (p = S n) by lia. subst p. congruence.
Qed.

End Order.

(** What a run that returns has reached. *)
Lemma agrees_ret (s : status) (r : option error) : agrees s (RetF r) -> s = Finished r.
Proof.
  destruct s as [T e | [e|]]; cbn.
  - intros [Hdue | [Hlog | [Htau _]]];
      [ now apply not_ret_due in Hdue
      | now apply not_ret_pending_log in Hlog
      | now apply not_ret_silent in Htau ].
  - intros [= ->]. reflexivity.
  - intros [[= ->] | Hlog]; [reflexivity | now apply not_ret_pending_log in Hlog].
Qed.

(** C3. [ExecuteTX] hands every error of the script engine to its caller as
    it is: whichever call on the engine is answered with an error (the
    construction, the disassembly, a step, the final check), nothing more is
    asked of the engine and [ExecuteTX] returns that very error; an error
    returned is the one the engine gave last; and [nil] is returned only
    after no call met an error, the first call being the construction and the
    last the final check. *)
Theorem ExecuteTX_propagates (dump : bool) (scriptPubKey : list Z) (tx : Tx) tr o :
  run (ExecuteTX dump scriptPubKey tx) tr o ->
  (forall p c e,
      vm_calls tr !! p = Some c -> call_error c = Some e ->
      length (vm_calls tr) = S p /\ o = RetF (Some e)) /\
  (forall e,
      o = RetF (Some e) ->
      exists c, last (vm_calls tr) = Some c /\ call_error c = Some e) /\
  (o = RetF None ->
      (forall p c, vm_calls tr !! p = Some c -> call_error c = None) /\
      exists c0 c1,
        vm_calls tr !! 0%nat = Some c0 /\ kind_of c0 = KNewEngine /\
        last (vm_calls tr) = Some c1 /\ kind_of c1 = KCheckErrorCondition).
Proof.
  intros Hrun. apply harness_runs in Hrun as (s & Hcalls & Hag).
  split; [|split].
  - intros p c e Hp Herr.
    destruct (harness_calls_error _ _ _ _ _ _ _ Hcalls Hp Herr) as [Hlen ->].
    split; [exact Hlen | exact Hag].
  - intros e ->. apply agrees_ret in Hag as ->.
    now apply harness_calls_finished_error in Hcalls.
  - intros ->. apply agrees_ret in Hag as ->.
    now apply harness_calls_finished_nil in Hcalls.
Qed.

(** C9. In every run of [ExecuteTX], cut anywhere or complete: a call of
    [CheckErrorCondition] is the last call on the engine and comes straight
    after a [Step] answered [done = true] without error and the reading of
    the stack that follows it; after a [Step] answered without error the
    stack is read, and what follows is the final check when [done] was true
    and the next [DisasmPC] of the loop when it was false; and once such a
    completed step and the reading of the stack are the last calls made, the
    final check is what the harness does next (a line for the log may still
    wait to be taken). *)
Theorem ExecuteTX_checks_after_done (dump : bool) (scriptPubKey : list Z) (tx : Tx) tr o :
  run (ExecuteTX dump scriptPubKey tx) tr o ->
  (forall p c,
      vm_calls tr !! p = Some c -> kind_of c = KCheckErrorCondition ->
      length (vm_calls tr) = S p /\
      exists n c2 c1,
        p = S (S n) /\
        vm_calls tr !! n = Some c2 /\ step_result c2 = Some (true, None) /\
        vm_calls tr !! S n = Some c1 /\ kind_of c1 = KGetStack) /\
  (forall p c done,
      vm_calls tr !! p = Some c -> step_result c = Some (done, None) ->
      (forall c1, vm_calls tr !! (p + 1)%nat = Some c1 -> kind_of c1 = KGetStack) /\
      (forall c2, vm_calls tr !! (p + 2)%nat = Some c2 ->
         kind_of c2 = if done then KCheckErrorCondition else KDisasmPC)) /\
  (forall p c,
      vm_calls tr !! p = Some c -> step_result c = Some (true, None) ->
      length (vm_calls tr) = (p + 2)%nat ->
      exists vm, due (CheckErrorCondition vm true) o \/ pending_log o).
Proof.
  intros Hrun. apply harness_runs in Hrun as (s & Hcalls & Hag).
  split; [|split].
  - intros p c Hp Hkind. eapply harness_calls_check; eauto.
  - intros p c done Hp Hstep. eapply harness_calls_step; eauto.
  - intros p c Hp Hstep Hlen.
    destruct (harness_calls_done _ _ _ _ _ _ Hcalls Hp Hstep Hlen) as [vm ->].
    exists vm. destruct Hag as [Hdue | [Hlog | [_ Hkind]]];
      [now left | now right | discriminate].
Qed.

(** *** The test log

    What [ExecuteTX] sends to [t.Logf] is decided by the answers of the
    engine: the transcript below puts, behind each call, the line the source
    logs once that call is answered. *)

(** A call on the engine and a line for the log, as calls of the harness. *)
Definition lift (c : call vmE) : call harnessE :=
  match c with Call e x => Call (inl1 e) x end.

Definition log_call (line : log_line) : call harnessE :=
  Call (inr1 (Logf line)) tt.

(** The line logged once [c] is answered, at the value [i] of the loop
    counter: the heading after the construction, the disassembly, the stack,
    the closing line after the final check; nothing after [Step] or after an
    error. *)
Definition line_after (tx : Tx) (i : Z) (c : call vmE) : option log_line :=
  match c with
  | Call e x =>
      match e in vmE T return T -> option log_line with
      | NewEngine _ _ _ _ _ => fun x =>
          match snd x with
          | None => Some (LogExecuting (tx_Hash tx))
          | Some _ => None
          end
      | DisasmPC _ => fun x =>
          match snd x with
          | None => Some (LogDisasm i (fst x))
          | Some _ => None
          end
      | Step _ => fun _ => None
      | GetStack _ => fun stack => Some (LogStack i stack)
      | CheckErrorCondition _ _ => fun err =>
          match err with
          | None => Some (LogSuccess (tx_Hash tx))
          | Some _ => None
          end
      end x
  end.

(** The loop counter once [c] is answered: [i++] follows the reading of the
    stack. *)
Definition counter_after (i : Z) (c : call vmE) : Z :=
  match kind_of c with
  | KGetStack => int_wrap (i + 1)
  | _ => i
  end.

Definition logged (dump : bool) (line : option log_line) : list (call harnessE) :=
  match line with
  | Some l => if dump then [log_call l] else []
  | None => []
  end.

Fixpoint transcript (dump : bool) (tx : Tx) (i : Z) (calls : list (call vmE))
  : list (call harnessE) :=
  match calls with
  | [] => []
  | c :: calls' =>
      lift c :: logged dump (line_after tx i c)
        ++ transcript dump tx (counter_after i c) calls'
  end.

(** The line a run that is cut still owes to the log. *)
Definition owed {R : Type} (o : itree' harnessE R) : list (call harnessE) :=
  match o with
  | VisF e _ =>
      match e with
      | inl1 _ => []
      | inr1 l => match l with Logf line => [log_call line] end
      end
  | _ => []
  end.

Lemma vm_calls_logged (dump : bool) (line : option log_line) tr :
  vm_calls (logged dump line ++ tr) = vm_calls tr.
Proof. destruct line, dump; reflexivity. Qed.

Lemma vm_calls_transcript (dump : bool) (tx : Tx) (i : Z) (calls : list (call vmE)) :
  vm_calls (transcript dump tx i calls) = calls.
Proof.
  revert i. induction calls as [|c calls IH]; intros i; [reflexivity|].
  destruct c as [T e x]. cbn [transcript lift].
  change (vm_calls (Call (inl1 e) x :: ?l)) with (Call e x :: vm_calls l).
  now rewrite vm_calls_logged, IH.
Qed.

Lemma transcript_app (dump : bool) (tx : Tx) (i : Z) (calls1 calls2 : list (call vmE)) :
  transcript dump tx i (calls1 ++ calls2)
  = transcript dump tx i calls1
      ++ transcript dump tx (foldl counter_after i calls1) calls2.
Proof.
  revert i. induction calls1 as [|c calls1 IH]; intros i; [reflexivity|].
  cbn [transcript app foldl]. now rewrite IH, <- app_assoc.
Qed.

Lemma transcript_silent (tx : Tx) (i : Z) (calls : list (call vmE)) :
  transcript false tx i calls = lift <$> calls.
Proof.
  revert i. induction calls as [|c calls IH]; intros i; [reflexivity|].
  cbn [transcript fmap list_fmap]. rewrite IH.
  destruct (line_after tx i c); reflexivity.
Qed.

Lemma owed_bind {R S : Type} (o : itree' harnessE R) (k : R -> itree harnessE S) :
  (forall r, o <> RetF r) -> owed (observe (ITree.bind (go o) k)) = owed o.
Proof.
  intros Hnr. rewrite observe_bind.
  destruct o as [r| |]; [now destruct (Hnr r) | reflexivity ..].
Qed.

Lemma owed_pending_log {R : Type} (o : itree' harnessE R) :
  pending_log o <-> owed o <> [].
Proof.
  split.
  - intros (line & k & ->). discriminate.
  - destruct o as [r | t | T [v | l] k]; cbn; try congruence.
    intros _. destruct l as [line]. eexists _, _. reflexivity.
Qed.

(** A line for the log in full: it waits to be taken, or it is in the run
    when lines are dumped and the run goes on behind it. *)
Lemma run_logf_owed {R : Type} (dump : bool) (line : log_line)
    (k : unit -> itree harnessE R) tr o :
  run (ITree.bind (logf dump line) k) tr o ->
  (tr = [] /\ dump = true /\ owed o = [log_call line]) \/
  (exists tr', tr = logged dump (Some line) ++ tr' /\ run (k tt) tr' o).
Proof.
  intros Hrun. destruct dump; unfold logf in Hrun.
  - run_vis Hrun. destruct Hrun as [[-> ->] | ([] & tr' & -> & Hrun)].
    + left. repeat split.
    + right. exists tr'. split; [reflexivity|].
      eapply run_observe; [|exact Hrun]. reflexivity.
  - right. exists tr. split; [reflexivity|].
    eapply run_observe; [|exact Hrun]. reflexivity.
Qed.

Lemma run_logf_intro {R : Type} (dump : bool) (line : log_line)
    (k : unit -> itree harnessE R) tr o :
  run (k tt) tr o ->
  run (ITree.bind (logf dump line) k) (logged dump (Some line) ++ tr) o.
Proof.
  intros Hrun. destruct dump; unfold logf; cbn [logged app].
  - eapply run_call; [cbn; reflexivity|].
    eapply run_observe; [|exact Hrun]. reflexivity.
  - eapply run_observe; [|exact Hrun]. reflexivity.
Qed.

(** One iteration of the loop, with its lines. *)
Lemma body_transcript (dump : bool) (vm : Engine) (tx : Tx) (i : Z) tr o :
  run (loop_body dump vm i) tr o ->
  tr ++ owed o = transcript dump tx i (vm_calls tr).
Proof.
  intros Hrun. unfold loop_body in Hrun.
  run_vis Hrun. destruct Hrun as [[-> ->] | ([d [e|]] & tr' & -> & Hrun)].
  { reflexivity. }
  { run_ret Hrun. destruct Hrun as [-> ->]. reflexivity. }
  run_bind_ret Hrun.
  apply run_logf_owed in Hrun as [(-> & -> & Ho) | (tr2 & -> & Hrun)].
  { rewrite Ho. reflexivity. }
  run_vis Hrun. destruct Hrun as [[-> ->] | ([done [e|]] & tr' & -> & Hrun)].
  { destruct dump; reflexivity. }
  { run_ret Hrun. destruct Hrun as [-> ->]. destruct dump; reflexivity. }
  run_bind_ret Hrun.
  run_vis Hrun. destruct Hrun as [[-> ->] | (stack & tr2 & -> & Hrun)].
  { destruct dump; reflexivity. }
  run_bind_ret Hrun.
  apply run_logf_owed in Hrun as [(-> & -> & Ho) | (tr3 & -> & Hrun)].
  { rewrite Ho. reflexivity. }
  destruct done; run_ret Hrun; destruct Hrun as [-> ->];
    destruct dump; reflexivity.
Qed.

(** The stepping loop, with its lines, from any value of the counter. *)
Lemma loop_transcript (dump : bool) (vm : Engine) (tx : Tx) tr :
  forall i o,
    run (ITree.iter (loop_body dump vm) i) tr o ->
    tr ++ owed o = transcript dump tx i (vm_calls tr).
Proof.
  remember (length tr) as n eqn:Hn. revert tr Hn.
  induction n as [n IH] using lt_wf_ind. intros tr Hn i o Hrun.
  apply (run_observe _ _ _ _ (observe_iter _ _)) in Hrun.
  apply run_bind_inv in Hrun
    as [(o' & Hrun & Hnr & ->) | (tr1 & tr2 & lr & -> & Hret & Hrun)].
  - rewrite owed_bind by exact Hnr. eapply body_transcript, Hrun.
  - unfold returns in Hret.
    pose proof (body_transcript _ _ tx _ _ _ Hret) as Htr1.
    cbn [owed] in Htr1. rewrite app_nil_r in Htr1.
    destruct lr as [i'|ex]; cbv beta iota in Hrun.
    + apply body_runs in Hret
        as [([T e | e |] & _ & Hag) | (d & stack & Hcalls & Hag)].
      * destruct Hag as [Hdue | Hlog];
          [now apply not_ret_due in Hdue | now apply not_ret_pending_log in Hlog].
      * discriminate.
      * destruct Hag as [Hag | Hlog];
          [discriminate | now apply not_ret_pending_log in Hlog].
      * destruct Hag as [Hag | Hlog]; [|now apply not_ret_pending_log in Hlog].
        injection Hag as ->.
        rewrite vm_calls_app, transcript_app, <- Htr1, Hcalls.
        change (foldl counter_after i _) with (int_wrap (i + 1)).
        rewrite <- app_assoc. f_equal.
        run_tau Hrun. destruct Hrun as [[-> ->] | Hrun]; [reflexivity|].
        assert (Hlt : (length tr2 < n)%nat).
        { subst n. rewrite length_app. destruct tr1; [discriminate | simpl; lia]. }
        exact (IH _ Hlt tr2 eq_refl _ _ Hrun).
    + run_ret Hrun. destruct Hrun as [-> ->].
      cbn [owed]. rewrite !app_nil_r. exact Htr1.
Qed.

Lemma after_loop_transcript (dump : bool) (vm : Engine) (tx : Tx) (i : Z) tr o :
  run (after_loop dump vm tx) tr o ->
  tr ++ owed o = transcript dump tx i (vm_calls tr).
Proof.
  intros Hrun. unfold after_loop in Hrun.
  run_vis Hrun. destruct Hrun as [[-> ->] | ([e|] & tr' & -> & Hrun)].
  - reflexivity.
  - run_ret Hrun. destruct Hrun as [-> ->]. reflexivity.
  - run_bind_ret Hrun.
    apply run_logf_owed in Hrun as [(-> & -> & Ho) | (tr2 & -> & Hrun)].
    + rewrite Ho. reflexivity.
    + run_ret Hrun. destruct Hrun as [-> ->]. destruct dump; reflexivity.
Qed.

(** Every run of [ExecuteTX], with the line it may still owe, is the
    transcript of its calls on the engine. *)
Lemma transcript_runs (dump : bool) (scriptPubKey : list Z) (tx : Tx) tr o :
  run (ExecuteTX dump scriptPubKey tx) tr o ->
  tr ++ owed o = transcript dump tx 0 (vm_calls tr).
Proof.
  intros Hrun. unfold ExecuteTX in Hrun.
  run_vis Hrun. destruct Hrun as [[-> ->] | ([vm [e|]] & tr' & -> & Hrun)].
  { reflexivity. }
  { run_ret Hrun. destruct Hrun as [-> ->]. reflexivity. }
  run_bind_ret Hrun.
  apply run_logf_owed in Hrun as [(-> & -> & Ho) | (tr2 & -> & Hrun)].
  { rewrite Ho. reflexivity. }
  rewrite vm_calls_vm, vm_calls_logged.
  cbn [transcript line_after snd counter_after kind_of event_kind lift app].
  rewrite <- app_assoc. f_equal. f_equal.
  apply run_bind_inv in Hrun
    as [(o' & Hrun & Hnr & ->) | (tr1 & tr3 & ex & -> & Hret & Hrun)].
  - rewrite owed_bind by exact Hnr. eapply loop_transcript, Hrun.
  - unfold returns in Hret.
    pose proof (loop_transcript _ _ tx _ _ _ Hret) as Htr1.
    cbn [owed] in Htr1. rewrite app_nil_r in Htr1.
    rewrite vm_calls_app, transcript_app, <- Htr1, <- app_assoc. f_equal.
    destruct ex as [e|]; cbv beta iota in Hrun.
    + run_ret Hrun. destruct Hrun as [-> ->]. reflexivity.
    + eapply after_loop_transcript, Hrun.
Qed.

(** *** Every dialogue in order is a run *)

(** The loop goes through any sequence of calls in order. *)
Lemma loop_complete (dump : bool) (vm : Engine) (tx : Tx) calls s :
  loop_calls vm calls s ->
  forall i,
    match s with
    | LNext _ => True
    | LReturn e =>
        returns (ITree.iter (loop_body dump vm) i) (transcript dump tx i calls)
          (LoopReturn e)
    | LBreak =>
        returns (ITree.iter (loop_body dump vm) i) (transcript dump tx i calls)
          LoopBreak
    end.
Proof.
  intros Hloop.
  induction Hloop as [| d e | d | d done e | d done | d stack | d stack calls s Hloop IH];
    intros i; try exact I.
  - unfold returns. destruct dump; run_build.
  - unfold returns. destruct dump; run_build.
  - unfold returns. destruct dump; run_build.
  - destruct s as [T e | e |]; [exact I | |];
      unfold returns; destruct dump;
      cbn [transcript lift logged line_after counter_after kind_of event_kind
           cDisasm cStep cStack log_call app fst snd];
      run_build; apply IH.
Qed.

Lemma harness_complete (dump : bool) (scriptPubKey : list Z) (tx : Tx) calls r :
  harness_calls scriptPubKey tx calls (Finished r) ->
  returns (ExecuteTX dump scriptPubKey tx) (transcript dump tx 0 calls) r.
Proof.
  intros Hcalls. remember (Finished r) as s eqn:Hs.
  destruct Hcalls as [|vm e|vm lcalls T e Hloop|vm lcalls e Hloop
                      |vm lcalls Hloop|vm lcalls r' Hloop];
    try discriminate; injection Hs as <-.
  - unfold returns. destruct dump; run_build.
  - pose proof (loop_complete dump vm tx _ _ Hloop 0) as Hret. cbv beta iota in Hret.
    unfold returns, ExecuteTX.
    cbn [transcript lift line_after counter_after kind_of event_kind cNew snd].
    eapply run_call; [cbn; reflexivity|]. run_enter.
    apply run_logf_intro. cbv beta.
    rewrite <- (app_nil_r (transcript _ _ _ _)).
    eapply run_bind_returns; [exact Hret|]. apply run_stop_eq. reflexivity.
  - pose proof (loop_complete dump vm tx _ _ Hloop 0) as Hret. cbv beta iota in Hret.
    unfold returns, ExecuteTX.
    cbn [transcript lift line_after counter_after kind_of event_kind cNew snd].
    eapply run_call; [cbn; reflexivity|]. run_enter.
    apply run_logf_intro. cbv beta. rewrite transcript_app.
    eapply run_bind_returns; [exact Hret|]. cbv beta iota.
    unfold after_loop. destruct r', dump; run_build.
Qed.

Lemma length_vm_calls (tr : list (call harnessE)) :
  (length (vm_calls tr) <= length tr)%nat.
Proof.
  induction tr as [|c tr IH]; [reflexivity|].
  unfold vm_calls in *. cbn [omap list_omap].
  destruct (vm_call c); simpl; lia.
Qed.

(** X13. Without [dump], [ExecuteTX] never writes to the test log: every
    call of every run, cut anywhere or complete, is a call on the script
    engine, and no line waits to be logged. *)
Theorem ExecuteTX_silent (scriptPubKey : list Z) (tx : Tx) tr o :
  run (ExecuteTX false scriptPubKey tx) tr o ->
  tr = lift <$> vm_calls tr /\
  (forall line, log_call line ∉ tr) /\
  ~ pending_log o.
Proof.
  intros Hrun. apply transcript_runs in Hrun. rewrite transcript_silent in Hrun.
  pose proof (length_vm_calls tr) as Hlen.
  assert (Howed : owed o = []).
  { apply (f_equal length) in Hrun. rewrite length_app, length_fmap in Hrun.
    destruct (owed o); [reflexivity | simpl in Hrun; lia]. }
  rewrite Howed, app_nil_r in Hrun. split; [exact Hrun|]. split.
  - intros line Hin. rewrite Hrun in Hin.
    apply list_elem_of_fmap in Hin as ([T e x] & Heq & _).
    apply (f_equal vm_call) in Heq. discriminate.
  - rewrite owed_pending_log. congruence.
Qed.

(** X14. With [dump], the test log follows the dialogue with the engine
    line by line: every run of [ExecuteTX], together with the line it may
    still owe when it is cut, is the transcript of its calls on the engine.
    The heading is logged right after the engine is constructed, the
    disassembly [i: d] right after [DisasmPC] answers [d], the stack right
    after [GetStack], both under the number [i] of iterations completed
    before, and the closing line right after the final check passed; [Step]
    and a call answered with an error are followed by no line. *)
Theorem ExecuteTX_logs_dialogue (scriptPubKey : list Z) (tx : Tx) tr o :
  run (ExecuteTX true scriptPubKey tx) tr o ->
  tr ++ owed o = transcript true tx 0 (vm_calls tr) /\
  (forall r, o = RetF r -> tr = transcript true tx 0 (vm_calls tr)).
Proof.
  intros Hrun. apply transcript_runs in Hrun. split; [exact Hrun|].
  intros r ->. cbn [owed] in Hrun. now rewrite app_nil_r in Hrun.
Qed.

(** The line a call of the harness hands to the log. *)
Definition log_line_of (c : call harnessE) : option log_line :=
  match c with
  | Call e _ =>
      match e with
      | inl1 _ => None
      | inr1 l => match l with Logf line => Some line end
      end
  end.

(** The closing line is logged for a final check that passed, and for
    nothing else. *)
Lemma line_after_success (tx : Tx) (i : Z) (c : call vmE) (h : list Z) :
  line_after tx i c = Some (LogSuccess h) ->
  kind_of c = KCheckErrorCondition /\ call_error c = None.
Proof.
  destruct c as [T [] x]; cbn; try destruct x as [x1 [e|]]; try destruct x;
    cbn; try discriminate; auto.
Qed.

Lemma transcript_success (dump : bool) (tx : Tx) (h : list Z) calls :
  forall i, log_call (LogSuccess h) ∈ transcript dump tx i calls ->
            exists c, c ∈ calls /\ kind_of c = KCheckErrorCondition /\ call_error c = None.
Proof.
  induction calls as [|c calls IH]; intros i Hin; cbn [transcript] in Hin.
  - now apply elem_of_nil in Hin.
  - apply elem_of_cons in Hin as [Heq | Hin].
    { destruct c as [T e x]. apply (f_equal log_line_of) in Heq. discriminate. }
    apply elem_of_app in Hin as [Hin | Hin].
    + exists c. split; [now left|].
      destruct (line_after tx i c) as [l|] eqn:Hline; [|now apply elem_of_nil in Hin].
      destruct dump; [|now apply elem_of_nil in Hin].
      apply list_elem_of_singleton in Hin. apply (f_equal log_line_of) in Hin.
      injection Hin as <-. now apply line_after_success in Hline.
    + destruct (IH _ Hin) as (c' & Hc' & Hk). exists c'. split; [now right | exact Hk].
Qed.

(** X15. With [dump], the closing line [=== SUCCESS] tells the truth: a
    complete run of [ExecuteTX] holds it exactly when [nil] is returned, and
    then it is the last thing the run does. *)
Theorem ExecuteTX_success_logged (scriptPubKey : list Z) (tx : Tx) tr r :
  returns (ExecuteTX true scriptPubKey tx) tr r ->
  (log_call (LogSuccess (tx_Hash tx)) ∈ tr <-> r = None) /\
  (r = None -> last tr = Some (log_call (LogSuccess (tx_Hash tx)))).
Proof.
  unfold returns. intros Hrun.
  pose proof (transcript_runs _ _ _ _ _ Hrun) as Htr.
  cbn [owed] in Htr. rewrite app_nil_r in Htr.
  apply harness_runs in Hrun as (s & Hcalls & Hag). apply agrees_ret in Hag as ->.
  assert (Hlast : r = None -> last tr = Some (log_call (LogSuccess (tx_Hash tx)))).
  { intros ->. remember (Finished None) as s eqn:Hs.
    destruct Hcalls as [|vm e|vm lcalls T e Hloop|vm lcalls e Hloop
                        |vm lcalls Hloop|vm lcalls r' Hloop];
      try discriminate; injection Hs as ->.
    rewrite Htr, app_comm_cons, transcript_app.
    cbn [transcript line_after logged app cCheck].
    rewrite app_comm_cons.
    change [lift (cCheck vm None); ?y] with ([lift (cCheck vm None)] ++ [y]).
    rewrite (assoc_L (++)). apply last_snoc. }
  split; [|exact Hlast]. split.
  - intros Hin. rewrite Htr in Hin.
    apply transcript_success in Hin as (c & Hc & Hkind & Herr).
    apply list_elem_of_lookup in Hc as [p Hp].
    destruct (harness_calls_check _ _ _ _ _ _ Hcalls Hp Hkind) as [Hlen _].
    destruct r as [e|]; [exfalso | reflexivity].
    destruct (harness_calls_finished_error _ _ _ _ Hcalls) as (c' & Hlast' & Herr').
    rewrite last_lookup, Hlen in Hlast'. simpl in Hlast'. congruence.
  - intros Hr. apply Hlast in Hr. rewrite last_Some in Hr. destruct Hr as [l' ->].
    apply elem_of_app. right. now left.
Qed.

(** X16. The complete runs of [ExecuteTX] are known exactly: a sequence of
    calls is a run that returns [r] if and only if its calls on the engine
    keep the order of the harness (the construction; then disassembly, step
    and stack, again and again until a step is the last; then the final
    check; an error ending everything) up to the return of [r], and the
    sequence is the transcript of these calls.  Every such dialogue is one
    the harness goes through, whatever the engine answers. *)
Theorem ExecuteTX_complete_runs (dump : bool) (scriptPubKey : list Z) (tx : Tx) tr r :
  returns (ExecuteTX dump scriptPubKey tx) tr r <->
  harness_calls scriptPubKey tx (vm_calls tr) (Finished r) /\
  tr = transcript dump tx 0 (vm_calls tr).
Proof.
  split.
  - unfold returns. intros Hrun. split.
    + apply harness_runs in Hrun as (s & Hcalls & Hag).
      now apply agrees_ret in Hag as ->.
    + apply transcript_runs in Hrun. cbn [owed] in Hrun.
      now rewrite app_nil_r in Hrun.
  - intros [Hcalls Htr]. rewrite Htr. now apply harness_complete.
Qed.

(** X17. Whether lines are dumped changes nothing for the engine and for
    the caller: when [ExecuteTX] returns [r] after a dialogue with the
    engine, it returns the same [r] after the same dialogue under any other
    value of [dump]; only the lines in between differ. *)
Theorem ExecuteTX_dump_irrelevant (dump dump' : bool) (scriptPubKey : list Z)
    (tx : Tx) tr r :
  returns (ExecuteTX dump scriptPubKey tx) tr r ->
  exists tr',
    returns (ExecuteTX dump' scriptPubKey tx) tr' r /\
    vm_calls tr' = vm_calls tr /\
    tr' = transcript dump' tx 0 (vm_calls tr).
Proof.
  unfold returns at 1. intros Hrun.
  apply harness_runs in Hrun as (s & Hcalls & Hag). apply agrees_ret in Hag as ->.
  exists (transcript dump' tx 0 (vm_calls tr)).
  split; [now apply harness_complete|]. split; [apply vm_calls_transcript | reflexivity].
Qed.

(** *** The engine the harness talks to *)

(** A call made on the engine [vm], with the arguments the harness passes. *)
Definition on_engine (vm : Engine) (c : call vmE) : Prop :=
  (exists d err, c = cDisasm vm d err) \/
  (exists done err, c = cStep vm done err) \/
  (exists stack, c = cStack vm stack) \/
  (exists err, c = cCheck vm err).

Lemma loop_calls_on_engine vm calls s p c :
  loop_calls vm calls s -> calls !! p = Some c -> on_engine vm c.
Proof.
  intros Hloop. revert p.
  induction Hloop; intros p Hp; at_position Hp;
    try (now apply IHHloop in Hp); unfold on_engine;
    first [ left; eexists _, _; reflexivity
          | right; left; eexists _, _; reflexivity
          | right; right; left; eexists; reflexivity ].
Qed.

(** X18. [ExecuteTX] talks to one engine: the first call of every run is
    [txscript.NewEngine] on the script and the transaction given, for input
    0, with the four flags of the source and the amount -1; every later call
    is made after that construction succeeded, on the engine it returned, and
    is [DisasmPC], [Step], [GetStack] or [CheckErrorCondition(true)]. *)
Theorem ExecuteTX_one_engine (dump : bool) (scriptPubKey : list Z) (tx : Tx) tr o :
  run (ExecuteTX dump scriptPubKey tx) tr o ->
  forall c0, vm_calls tr !! 0%nat = Some c0 ->
  exists vm err,
    c0 = cNew scriptPubKey tx vm err /\
    forall p c, vm_calls tr !! S p = Some c -> err = None /\ on_engine vm c.
Proof.
  intros Hrun c0 H0. apply harness_runs in Hrun as (s & Hcalls & _).
  destruct Hcalls as [|vm e|vm lcalls T e Hloop|vm lcalls e Hloop
                      |vm lcalls Hloop|vm lcalls r Hloop];
    at_position H0; eexists vm, _; (split; [reflexivity|]); intros p c Hp;
    at_position Hp;
    try (split; [reflexivity | eapply loop_calls_on_engine; eassumption]).
  split; [reflexivity|].
  apply lookup_snoc_Some in Hp as [[_ Hp] | [_ <-]].
  - eapply loop_calls_on_engine; eassumption.
  - unfold on_engine. right; right; right. eexists. reflexivity.
Qed.

(** *** How much is asked of the engine *)

#[local] Instance call_kind_eq_dec : EqDecision call_kind.
Proof. solve_decision. Defined.

Definition count_kind (kd : call_kind) (calls : list (call vmE)) : nat :=
  length (filter (fun c => kind_of c = kd) calls).

Lemma count_kind_cons (kd : call_kind) (c : call vmE) calls :
  count_kind kd (c :: calls)
  = ((if decide (kind_of c = kd) then 1 else 0) + count_kind kd calls)%nat.
Proof.
  unfold count_kind. rewrite filter_cons. destruct (decide (kind_of c = kd)); reflexivity.
Qed.

Lemma count_kind_app (kd : call_kind) calls1 calls2 :
  count_kind kd (calls1 ++ calls2) = (count_kind kd calls1 + count_kind kd calls2)%nat.
Proof. unfold count_kind. now rewrite filter_app, length_app. Qed.

(** A loop that is left by [break] has gone through [k >= 1] iterations of
    three calls each, and through five calls each when lines are dumped. *)
Lemma loop_calls_counts (dump : bool) (tx : Tx) vm calls :
  loop_calls vm calls LBreak ->
  exists k,
    (1 <= k)%nat /\
    length calls = (3 * k)%nat /\
    count_kind KNewEngine calls = 0%nat /\
    count_kind KDisasmPC calls = k /\
    count_kind KStep calls = k /\
    count_kind KGetStack calls = k /\
    count_kind KCheckErrorCondition calls = 0%nat /\
    forall i, length (transcript dump tx i calls) = ((if dump then 5 else 3) * k)%nat.
Proof.
  intros Hloop. remember LBreak as s eqn:Hs.
  induction Hloop as [| d e | d | d done e | d done | d stack | d stack calls s Hloop IH];
    try discriminate.
  - exists 1%nat. repeat split; try reflexivity. intros i. destruct dump; reflexivity.
  - destruct (IH Hs) as (k & Hk & Hlen & HN & HD & HS & HG & HC & HT).
    exists (S k). rewrite !count_kind_cons, HN, HD, HS, HG, HC.
    cbn [length]. rewrite Hlen.
    repeat split; try reflexivity; try lia.
    intros i. destruct dump; cbn; rewrite HT; lia.
Qed.

(** X19. Before [ExecuteTX] returns [nil], the engine has gone through at
    least one iteration: for some [k >= 1] the run holds one construction,
    [k] disassemblies, [k] steps, [k] readings of the stack and one final
    check, [3k + 2] calls on the engine in all; with [dump] it holds
    [2k + 2] lines as well, [5k + 4] calls in all. *)
Theorem ExecuteTX_calls_before_nil (dump : bool) (scriptPubKey : list Z) (tx : Tx) tr :
  returns (ExecuteTX dump scriptPubKey tx) tr None ->
  exists k,
    (1 <= k)%nat /\
    count_kind KNewEngine (vm_calls tr) = 1%nat /\
    count_kind KDisasmPC (vm_calls tr) = k /\
    count_kind KStep (vm_calls tr) = k /\
    count_kind KGetStack (vm_calls tr) = k /\
    count_kind KCheckErrorCondition (vm_calls tr) = 1%nat /\
    length (vm_calls tr) = (3 * k + 2)%nat /\
    length tr = if dump then (5 * k + 4)%nat else (3 * k + 2)%nat.
Proof.
  unfold returns. intros Hrun.
  pose proof (transcript_runs _ _ _ _ _ Hrun) as Htr.
  cbn [owed] in Htr. rewrite app_nil_r in Htr.
  apply harness_runs in Hrun as (s & Hcalls & Hag). apply agrees_ret in Hag as ->.
  rewrite Htr. clear Htr. remember (Finished None) as s eqn:Hs.
  destruct Hcalls as [|vm e|vm lcalls T e Hloop|vm lcalls e Hloop
                      |vm lcalls Hloop|vm lcalls r Hloop];
    try discriminate; injection Hs as ->.
  destruct (loop_calls_counts dump tx _ _ Hloop)
    as (k & Hk & Hlen & HN & HD & HS & HG & HC & HT).
  exists k. rewrite !vm_calls_transcript.
  rewrite !count_kind_cons, !count_kind_app, !count_kind_cons, HN, HD, HS, HG, HC.
  change (count_kind _ []) with 0%nat.
  cbn [length transcript]. rewrite !length_app, transcript_app, !length_app, HT, Hlen.
  repeat split; try exact Hk;
    repeat match goal with
           | |- context [decide ?P] => destruct (decide P); try discriminate
           end;
    try (cbn; lia).
  destruct dump; cbn; lia.
Qed.

End WithImports.
End HarnessFacts.

(** * The helpers on concrete inputs *)

Module Concrete.
Import Keystones KeystoneFacts HemiRef Random RandomFacts Harness HarnessFacts.
Import Ports.

(** Errors carry their message; an engine is known by a number; a
    transaction by its bytes. *)
#[export] Instance imports_ref : Imports :=
  {| error := string; Engine := nat; MsgTx := list Z |}.

(** The runtime of linux/amd64. *)
#[local] Existing Instance linux_amd64.

(** A comparison of numbers, settled by evaluation. *)
Ltac evaluated := vm_compute; first [ discriminate | reflexivity ].

(** *** [crypto/sha256] known answers *)

Definition hex (b : list Z) : string :=
  let digit d := nth (Z.to_nat d) (list_ascii_of_string "0123456789abcdef") " "%char in
  string_of_list_ascii (concat ((fun x => [digit (x / 16); digit (x mod 16)]) <$> b)).

Example sha256_empty :
  hex (SHA256 [])
  = "e3b0c44298fc1c149afbf4c8996fb92427ae41e4649b934ca495991b7852b855"%string.
Proof. vm_compute. reflexivity. Qed.

Example sha256_abc :
  hex (SHA256 (bytes_of_string "abc"))
  = "ba7816bf8f01cfea414140de5dae2223b00361a396177a9cb410ff61f20015ad"%string.
Proof. vm_compute. reflexivity. Qed.

Example sha256_two_blocks :
  hex (SHA256 (bytes_of_string "abcdbcdecdefdefgefghfghighijhijkijkljklmklmnlmnomnopnopq"))
  = "248d6a61d20638b8e5c026930c3e6039a33ce45964ff2167f6ecedd419db06c1"%string.
Proof. vm_compute. reflexivity. Qed.

(** *** Keystones *)

(** Two keystones: an index of two keys and a chain of two records, the
    second one linked to the first and the first one to the genesis record. *)
Example two_keystones :
  match MakeSharedKeystones 2 with
  | Returned (m, l) => Some (size m, PrevKeystoneEPHash <$> l, EPHash <$> l)
  | RuntimePanic _ => None
  end
  = Some (2%nat, [SHA256 [0]; SHA256 [1]], [SHA256 [1]; SHA256 [2]]).
Proof. vm_compute. reflexivity. Qed.

(** Two keystones, as the builder returns them. *)
Lemma two_keystones_returned :
  MakeSharedKeystones 2 = Returned (index_of (first_keystones 2), first_keystones 2).
Proof. apply MakeSharedKeystones_spec; [lia | evaluated]. Qed.

(** The content hash of the reference instance tells the two apart. *)
Lemma two_keystones_collision_free : collision_free (first_keystones 2).
Proof.
  apply collision_free_NoDup, (bool_decide_unpack _). vm_compute. exact I.
Qed.

Lemma keystones_chain_witness :
  1 <= 2 /\
  exists m l,
    MakeSharedKeystones 2 = Returned (m, l) /\
    Z.of_nat (length l) = 2 /\
    (exists k0, l !! 0%nat = Some k0 /\
                PrevKeystoneEPHash k0 = EPHash genesis /\
                EPHash genesis = SHA256 [0]) /\
    (forall i, 1 <= i < 2 ->
       exists k k', l !! Z.to_nat i = Some k /\ l !! Z.to_nat (i - 1) = Some k' /\
                    PrevKeystoneEPHash k = EPHash k').
Proof.
  split; [lia|]. eexists _, _. split; [exact two_keystones_returned|].
  exact (proj2 (keystones_chain 2 ltac:(lia)) _ _ two_keystones_returned).
Defined.

Lemma keystones_count_witness :
  (0 <= 2 /\ sizeof_L2Keystone * 2 <= maxAlloc) /\
  exists m l,
    MakeSharedKeystones 2 = Returned (m, l) /\
    Z.of_nat (length l) = 2 /\
    Z.of_nat (size m) = 2.
Proof.
  assert (Hcap : sizeof_L2Keystone * 2 <= maxAlloc) by evaluated.
  split; [split; [lia | exact Hcap]|].
  destruct (proj1 (keystones_count 2) ltac:(lia) Hcap)
    as (m & l & Hret & Hlen & _ & _ & Hexact & _).
  exists m, l. split; [exact Hret|]. split; [exact Hlen|].
  apply Hexact; [lia|].
  apply MakeSharedKeystones_returned in Hret as (_ & _ & ->).
  exact two_keystones_collision_free.
Defined.

(** C2 as stated fails twice.  Asked for [2^62] records, the builder returns
    nothing: [make] panics.  Asked for [2^32 + 1] records, which the runtime
    allocates, it returns a map with fewer entries than records, because the
    records at indices [0] and [2^32] are the same record. *)
Lemma keystones_count_breaks :
  MakeSharedKeystones (2 ^ 62) = RuntimePanic "makeslice: cap out of range" /\
  exists m l,
    MakeSharedKeystones (2 ^ 32 + 1) = Returned (m, l) /\
    Z.of_nat (length l) = 2 ^ 32 + 1 /\
    l !! Z.to_nat 0 = l !! Z.to_nat (0 + 2 ^ 32) /\
    Z.of_nat (size m) < 2 ^ 32 + 1.
Proof.
  split; [apply MakeSharedKeystones_panics; right; evaluated|].
  eexists _, _. split; [apply MakeSharedKeystones_spec; [lia | evaluated]|].
  split; [apply length_first_keystones; lia|].
  split; [apply first_keystones_period; lia|].
  pose proof (size_index_of_first_keystones (2 ^ 32 + 1)). lia.
Qed.

Example keystone_repeats : keystone_at (2 ^ 32) = keystone_at 0.
Proof. apply (keystone_at_shift 0). Qed.

(** C4 as stated fails: in a call for 256 records the byte of the record at
    index 255 is 0, not 256; its hashes are those of zero bytes, and its
    [EPHash] is the one of the genesis record. *)
Lemma keystone_byte_wraps :
  (exists m l k,
     MakeSharedKeystones 256 = Returned (m, l) /\
     l !! 255%nat = Some k /\
     ParentEPHash k = SHA256 [0; 0] /\
     StateRoot k = SHA256 [0; 0; 0] /\
     EPHash k = SHA256 [0] /\
     EPHash k = EPHash genesis) /\
  keystone_byte 255 = 0 /\
  keystone_byte 255 <> 255 + 1.
Proof.
  split; [|split; [reflexivity | discriminate]].
  eexists _, _, (keystone_at 255).
  split; [apply MakeSharedKeystones_spec; [lia | evaluated]|].
  split; [apply (lookup_first_keystones 256 255); lia|].
  repeat split.
Qed.

Lemma keystones_from_index_witness :
  (0 <= 3 /\ sizeof_L2Keystone * 3 <= maxAlloc) /\
  exists m l,
    MakeSharedKeystones 3 = Returned (m, l) /\
    m = index_of l /\
    forall ci, 0 <= ci < 3 ->
      exists x,
        x = keystone_byte ci /\ x = (ci + 1) mod 256 /\ (ci < 255 -> x = ci + 1) /\
        l !! Z.to_nat ci
        = Some {| Version := 1;
                  L1BlockNumber := (10000 + ci + 1) mod 2 ^ 32;
                  L2BlockNumber := ((ci + 1) mod 2 ^ 32 * 25) mod 2 ^ 32;
                  ParentEPHash := SHA256 [x; x];
                  PrevKeystoneEPHash := SHA256 [ci mod 256];
                  StateRoot := SHA256 [x; x; x];
                  EPHash := SHA256 [x] |}.
Proof.
  assert (Hcap : sizeof_L2Keystone * 3 <= maxAlloc) by evaluated.
  split; [split; [lia | exact Hcap]|].
  apply (proj2 (proj2 (keystones_from_index 3))); [lia | exact Hcap].
Defined.

(** *** [RandomBytes] *)

Lemma RandomBytes_length_witness :
  0 <= 4 <= maxAlloc /\
  (exists b,
     returns (RandomBytes 4) [read_call 4 [222; 173; 190; 239] None] b /\
     Z.of_nat (length b) = 4) /\
  panics (RandomBytes (2 ^ 48 + 1)) [] makeslice_panic.
Proof.
  assert (Hfits : 0 <= 4 <= maxAlloc) by (split; evaluated).
  split; [exact Hfits|]. split.
  - apply (proj1 (proj1 (RandomBytes_length 4) Hfits)).
  - apply (proj2 (RandomBytes_length (2 ^ 48 + 1))). evaluated.
Defined.

(** C8 as stated fails: asked for [2^62] bytes, [RandomBytes] returns no
    slice, whatever the entropy source would do; [make] panics before the
    source is read. *)
Lemma RandomBytes_beyond_allocation :
  0 <= 2 ^ 62 /\
  panics (RandomBytes (2 ^ 62)) [] makeslice_panic /\
  (forall tr o, run (RandomBytes (2 ^ 62)) tr o -> tr = []) /\
  (forall tr b, ~ returns (RandomBytes (2 ^ 62)) tr b).
Proof.
  split; [lia|].
  destruct (RandomBytes_refused_runs (2 ^ 62)) as (Hp & Hall & Hno); [right; evaluated|].
  split; [exact Hp|]. split; [|exact Hno].
  intros tr o Hrun. now apply Hall in Hrun.
Qed.

Example RandomBytes_fills :
  returns (RandomBytes 4) [read_call 4 [222; 173; 190; 239] None] [222; 173; 190; 239].
Proof.
  unfold returns. rewrite RandomBytes_allocated by (split; evaluated). run_build.
Qed.

Lemma RandomBytes_negative_witness :
  -1 < 0 /\
  panics (RandomBytes (-1)) [] makeslice_panic /\
  (forall tr o, run (RandomBytes (-1)) tr o ->
     tr = [] /\ exists k, o = VisF (inl1 (Throw makeslice_panic)) k) /\
  (forall tr b, ~ returns (RandomBytes (-1)) tr b).
Proof. split; [lia | apply (RandomBytes_negative (-1)); lia]. Defined.

(** *** [ExecuteTX] *)

Definition script : list Z := [81; 81].
Definition tx_ref : Tx := {| tx_MsgTx := [1; 0; 0; 0]; tx_Hash := [171; 205] |}.
Definition vm_ref : Engine := 7%nat.

(** A script of two instructions that runs to the end, not logged. *)
Definition calls_ok : list (call harnessE) :=
  [ Call (inl1 (NewEngine script (tx_MsgTx tx_ref) 0 flags (-1))) (vm_ref, None);
    Call (inl1 (DisasmPC vm_ref)) ("00:0000: OP_1"%string, None);
    Call (inl1 (Step vm_ref)) (false, None);
    Call (inl1 (GetStack vm_ref)) [[1]];
    Call (inl1 (DisasmPC vm_ref)) ("00:0001: OP_1"%string, None);
    Call (inl1 (Step vm_ref)) (true, None);
    Call (inl1 (GetStack vm_ref)) [[1]; [1]];
    Call (inl1 (CheckErrorCondition vm_ref true)) None ].

(** A step that fails, logged. *)
Definition calls_failing : list (call harnessE) :=
  [ Call (inl1 (NewEngine script (tx_MsgTx tx_ref) 0 flags (-1))) (vm_ref, None);
    Call (inr1 (Logf (LogExecuting (tx_Hash tx_ref)))) tt;
    Call (inl1 (DisasmPC vm_ref)) ("00:0000: OP_1"%string, None);
    Call (inr1 (Logf (LogDisasm 0 "00:0000: OP_1"))) tt;
    Call (inl1 (Step vm_ref)) (false, None);
    Call (inl1 (GetStack vm_ref)) [[1]];
    Call (inr1 (Logf (LogStack 0 [[1]]))) tt;
    Call (inl1 (DisasmPC vm_ref)) ("00:0001: OP_VERIFY"%string, None);
    Call (inr1 (Logf (LogDisasm 1 "00:0001: OP_VERIFY"))) tt;
    Call (inl1 (Step vm_ref)) (false, Some "verify failed"%string) ].

Example run_ok : returns (ExecuteTX false script tx_ref) calls_ok None.
Proof. unfold returns, calls_ok. run_build. Qed.

Example run_failing :
  returns (ExecuteTX true script tx_ref) calls_failing (Some "verify failed"%string).
Proof. unfold returns, calls_failing. run_build. Qed.

Example run_no_engine :
  returns (ExecuteTX false script tx_ref)
    [Call (inl1 (NewEngine script (tx_MsgTx tx_ref) 0 flags (-1)))
       (vm_ref, Some "bad script"%string)]
    (Some "bad script"%string).
Proof. unfold returns. run_build. Qed.

Example run_check_fails :
  returns (ExecuteTX false script tx_ref)
    (take 7 calls_ok
       ++ [Call (inl1 (CheckErrorCondition vm_ref true)) (Some "false stack entry"%string)])
    (Some "false stack entry"%string).
Proof. unfold returns, calls_ok. cbn [take app]. run_build. Qed.

(** The run that is cut when the loop has just been left. *)
Example run_exited :
  exists k, run (ExecuteTX false script tx_ref) (take 7 calls_ok)
              (VisF (inl1 (CheckErrorCondition vm_ref true)) k).
Proof. eexists. unfold calls_ok. cbn [take]. run_build. Qed.

Lemma ExecuteTX_propagates_witness :
  (run (ExecuteTX true script tx_ref) calls_failing (RetF (Some "verify failed"%string)) /\
   (length (vm_calls calls_failing) = 6%nat /\
    RetF (Some "verify failed"%string)
    = (RetF (Some "verify failed"%string) : itree' harnessE (option error))) /\
   exists c, last (vm_calls calls_failing) = Some c /\
             call_error c = Some "verify failed"%string) /\
  (run (ExecuteTX false script tx_ref) calls_ok (RetF None) /\
   (forall p c, vm_calls calls_ok !! p = Some c -> call_error c = None) /\
   exists c0 c1,
     vm_calls calls_ok !! 0%nat = Some c0 /\ kind_of c0 = KNewEngine /\
     last (vm_calls calls_ok) = Some c1 /\ kind_of c1 = KCheckErrorCondition).
Proof.
  split.
  - pose proof run_failing as Hrun. unfold returns in Hrun.
    pose proof (ExecuteTX_propagates true script tx_ref calls_failing _ Hrun)
      as (Herr & Hlast & _).
    split; [exact Hrun|]. split.
    + apply (Herr 5%nat (cStep vm_ref false (Some "verify failed"%string)));
        reflexivity.
    + apply Hlast. reflexivity.
  - pose proof run_ok as Hrun. unfold returns in Hrun.
    pose proof (ExecuteTX_propagates false script tx_ref calls_ok _ Hrun)
      as (_ & _ & Hnil).
    split; [exact Hrun|]. apply Hnil. reflexivity.
Defined.

Lemma ExecuteTX_checks_after_done_witness :
  (run (ExecuteTX false script tx_ref) calls_ok (RetF None) /\
   (length (vm_calls calls_ok) = 8%nat /\
    exists n c2 c1,
      7%nat = S (S n) /\
      vm_calls calls_ok !! n = Some c2 /\ step_result c2 = Some (true, None) /\
      vm_calls calls_ok !! S n = Some c1 /\ kind_of c1 = KGetStack) /\
   (forall c2, vm_calls calls_ok !! (2 + 2)%nat = Some c2 -> kind_of c2 = KDisasmPC) /\
   (forall c2, vm_calls calls_ok !! (5 + 2)%nat = Some c2 ->
      kind_of c2 = KCheckErrorCondition)) /\
  (exists o,
     run (ExecuteTX false script tx_ref) (take 7 calls_ok) o /\
     exists vm, due (CheckErrorCondition vm true) o \/ pending_log o).
Proof.
  split.
  - pose proof run_ok as Hrun. unfold returns in Hrun.
    pose proof (ExecuteTX_checks_after_done false script tx_ref calls_ok _ Hrun)
      as (Hcheck & Hstep & _).
    split; [exact Hrun|]. split; [|split].
    + apply (Hcheck 7%nat (cCheck vm_ref None)); reflexivity.
    + apply (Hstep 2%nat (cStep vm_ref false None) false); reflexivity.
    + apply (Hstep 5%nat (cStep vm_ref true None) true); reflexivity.
  - destruct run_exited as [k Hrun]. eexists. split; [exact Hrun|].
    pose proof (ExecuteTX_checks_after_done false script tx_ref _ _ Hrun)
      as (_ & _ & Hnext).
    apply (Hnext 5%nat (cStep vm_ref true None)); reflexivity.
Defined.

(** *** The further properties on concrete inputs *)

Lemma keystones_indexed_witness :
  MakeSharedKeystones 2 = Returned (index_of (first_keystones 2), first_keystones 2) /\
  (forall key a, index_of (first_keystones 2) !! key = Some a ->
     AbrevHash a = key /\
     exists k, k ∈ first_keystones 2 /\ a = L2KeystoneAbbreviate k).
Proof.
  split; [exact two_keystones_returned|].
  exact (proj1 (proj2 (keystones_indexed 2 _ _ two_keystones_returned))).
Defined.

Lemma keystones_extend_witness :
  (0 <= 1 <= 2 /\ sizeof_L2Keystone * 2 <= maxAlloc) /\
  exists mn ln mm lm,
    MakeSharedKeystones 1 = Returned (mn, ln) /\
    MakeSharedKeystones 2 = Returned (mm, lm) /\
    ln = take (Z.to_nat 1) lm /\
    dom mn ⊆ dom mm.
Proof.
  assert (Hcap : sizeof_L2Keystone * 2 <= maxAlloc) by evaluated.
  split; [split; [lia | exact Hcap]|].
  apply (keystones_extend 1 2); [lia | exact Hcap].
Defined.

Lemma keystones_block_numbers_witness :
  (MakeSharedKeystones 2 = Returned (index_of (first_keystones 2), first_keystones 2) /\
   first_keystones 2 !! 1%nat = Some (keystone_at 1)) /\
  L1BlockNumber (keystone_at 1) = 10001 + 1 /\
  L2BlockNumber (keystone_at 1) = 25 * (1 + 1).
Proof.
  pose proof (lookup_first_keystones 2 1 ltac:(lia)) as Hlook.
  split; [split; [exact two_keystones_returned | exact Hlook]|].
  destruct (keystones_block_numbers 2 _ _ 1 _ two_keystones_returned Hlook)
    as (_ & H1 & H2 & _).
  split; [apply H1 | apply H2]; reflexivity.
Defined.

Lemma keystones_well_formed_witness :
  (MakeSharedKeystones 2 = Returned (index_of (first_keystones 2), first_keystones 2) /\
   keystone_at 1 ∈ first_keystones 2) /\
  length (ParentEPHash (keystone_at 1)) = 32%nat /\
  length (PrevKeystoneEPHash (keystone_at 1)) = 32%nat /\
  length (StateRoot (keystone_at 1)) = 32%nat /\
  length (EPHash (keystone_at 1)) = 32%nat /\
  0 <= L1BlockNumber (keystone_at 1) < 2 ^ 32 /\
  0 <= L2BlockNumber (keystone_at 1) < 2 ^ 32.
Proof.
  assert (Hin : keystone_at 1 ∈ first_keystones 2).
  { apply list_elem_of_lookup. exists 1%nat. apply (lookup_first_keystones 2 1). lia. }
  split; [split; [exact two_keystones_returned | exact Hin]|].
  exact (keystones_well_formed 2 _ _ _ two_keystones_returned Hin).
Defined.

Lemma keystones_hashes_repeat_witness :
  MakeSharedKeystones 300
  = Returned (index_of (first_keystones 300), first_keystones 300) /\
  (256 < 300 -> ~ NoDup (EPHash <$> first_keystones 300)).
Proof.
  assert (Hret : MakeSharedKeystones 300
                 = Returned (index_of (first_keystones 300), first_keystones 300))
    by (apply MakeSharedKeystones_spec; [lia | evaluated]).
  split; [exact Hret|].
  exact (proj2 (keystones_hashes_repeat 300 _ _ Hret)).
Defined.

Lemma RandomBytes_content_witness :
  0 <= 4 <= maxAlloc /\
  returns (RandomBytes 4) [read_call 4 [222; 173; 190; 239] None] [222; 173; 190; 239].
Proof.
  assert (Hfits : 0 <= 4 <= maxAlloc) by (split; evaluated).
  split; [exact Hfits|].
  apply (proj1 (RandomBytes_content 4 Hfits) [222; 173; 190; 239]). reflexivity.
Defined.

(** The script of two instructions again, with its lines. *)
Definition calls_ok_dumped : list (call harnessE) :=
  [ Call (inl1 (NewEngine script (tx_MsgTx tx_ref) 0 flags (-1))) (vm_ref, None);
    Call (inr1 (Logf (LogExecuting (tx_Hash tx_ref)))) tt;
    Call (inl1 (DisasmPC vm_ref)) ("00:0000: OP_1"%string, None);
    Call (inr1 (Logf (LogDisasm 0 "00:0000: OP_1"))) tt;
    Call (inl1 (Step vm_ref)) (false, None);
    Call (inl1 (GetStack vm_ref)) [[1]];
    Call (inr1 (Logf (LogStack 0 [[1]]))) tt;
    Call (inl1 (DisasmPC vm_ref)) ("00:0001: OP_1"%string, None);
    Call (inr1 (Logf (LogDisasm 1 "00:0001: OP_1"))) tt;
    Call (inl1 (Step vm_ref)) (true, None);
    Call (inl1 (GetStack vm_ref)) [[1]; [1]];
    Call (inr1 (Logf (LogStack 1 [[1]; [1]]))) tt;
    Call (inl1 (CheckErrorCondition vm_ref true)) None;
    Call (inr1 (Logf (LogSuccess (tx_Hash tx_ref)))) tt ].

Example run_ok_dumped : returns (ExecuteTX true script tx_ref) calls_ok_dumped None.
Proof. unfold returns, calls_ok_dumped. run_build. Qed.

Example transcript_ok : transcript true tx_ref 0 (vm_calls calls_ok) = calls_ok_dumped.
Proof. reflexivity. Qed.

Lemma ExecuteTX_silent_witness :
  run (ExecuteTX false script tx_ref) calls_ok (RetF None) /\
  calls_ok = lift <$> vm_calls calls_ok /\
  (forall line, log_call line ∉ calls_ok) /\
  ~ pending_log (RetF None : itree' harnessE (option error)).
Proof.
  pose proof run_ok as Hrun. unfold returns in Hrun.
  split; [exact Hrun|]. exact (ExecuteTX_silent script tx_ref _ _ Hrun).
Defined.

Lemma ExecuteTX_logs_dialogue_witness :
  run (ExecuteTX true script tx_ref) calls_ok_dumped (RetF None) /\
  calls_ok_dumped = transcript true tx_ref 0 (vm_calls calls_ok_dumped).
Proof.
  pose proof run_ok_dumped as Hrun. unfold returns in Hrun.
  split; [exact Hrun|].
  exact (proj2 (ExecuteTX_logs_dialogue script tx_ref _ _ Hrun) None eq_refl).
Defined.

Lemma ExecuteTX_success_logged_witness :
  (returns (ExecuteTX true script tx_ref) calls_ok_dumped None /\
   last calls_ok_dumped = Some (log_call (LogSuccess (tx_Hash tx_ref)))) /\
  (returns (ExecuteTX true script tx_ref) calls_failing (Some "verify failed"%string) /\
   (log_call (LogSuccess (tx_Hash tx_ref)) ∈ calls_failing
    <-> Some "verify failed"%string = None)).
Proof.
  split.
  - split; [exact run_ok_dumped|].
    exact (proj2 (ExecuteTX_success_logged script tx_ref _ _ run_ok_dumped) eq_refl).
  - split; [exact run_failing|].
    exact (proj1 (ExecuteTX_success_logged script tx_ref _ _ run_failing)).
Defined.

Lemma ExecuteTX_dump_irrelevant_witness :
  returns (ExecuteTX true script tx_ref) calls_ok_dumped None /\
  exists tr',
    returns (ExecuteTX false script tx_ref) tr' None /\
    vm_calls tr' = vm_calls calls_ok_dumped /\
    tr' = transcript false tx_ref 0 (vm_calls calls_ok_dumped).
Proof.
  split; [exact run_ok_dumped|].
  exact (ExecuteTX_dump_irrelevant true false script tx_ref _ _ run_ok_dumped).
Defined.

Lemma ExecuteTX_one_engine_witness :
  (run (ExecuteTX false script tx_ref) calls_ok (RetF None) /\
   vm_calls calls_ok !! 0%nat = Some (cNew script tx_ref vm_ref None)) /\
  exists vm err,
    cNew script tx_ref vm_ref None = cNew script tx_ref vm err /\
    forall p c, vm_calls calls_ok !! S p = Some c -> err = None /\ on_engine vm c.
Proof.
  pose proof run_ok as Hrun. unfold returns in Hrun.
  split; [split; [exact Hrun | reflexivity]|].
  exact (ExecuteTX_one_engine false script tx_ref _ _ Hrun _ eq_refl).
Defined.

Lemma ExecuteTX_calls_before_nil_witness :
  returns (ExecuteTX true script tx_ref) calls_ok_dumped None /\
  exists k,
    (1 <= k)%nat /\
    count_kind KNewEngine (vm_calls calls_ok_dumped) = 1%nat /\
    count_kind KDisasmPC (vm_calls calls_ok_dumped) = k /\
    count_kind KStep (vm_calls calls_ok_dumped) = k /\
    count_kind KGetStack (vm_calls calls_ok_dumped) = k /\
    count_kind KCheckErrorCondition (vm_calls calls_ok_dumped) = 1%nat /\
    length (vm_calls calls_ok_dumped) = (3 * k + 2)%nat /\
    length calls_ok_dumped = (5 * k + 4)%nat.
Proof.
  split; [exact run_ok_dumped|].
  exact (ExecuteTX_calls_before_nil true script tx_ref _ run_ok_dumped).
Defined.

(** *** [FreePort] *)

Example FreePort_example :
  returns FreePort [PortFacts.probe_call 40123 None] "40123"%string.
Proof. unfold returns. run_build. Qed.

Example Itoa_examples :
  Ports.Itoa 0 = "0"%string /\ Ports.Itoa 65535 = "65535"%string /\
  Ports.Itoa (-7) = "-7"%string.
Proof. repeat split. Qed.

End Concrete.
